(** * Text chunking of the RAG application (src/app/api/lib/textUtils.ts)

    A shallow embedding of [splitLongWord], [splitParagraphByWords] and
    [chunkText], and the properties of the chunking algorithm.

    JavaScript strings are sequences of UTF-16 code units; [length],
    [substring], [split] and [trim] all work on code units, so a string is
    modelled as a list of code units.  The limit is an integer. *)

From Stdlib Require Import Ascii String.
From Stdlib Require Import List ZArith NArith Lia Bool.
Import ListNotations.
Open Scope Z_scope.

(** ** The string primitives the source uses *)

Module JS.

(** A UTF-16 code unit, and a string of them. *)
Abbreviation code_unit := N.
Abbreviation jsstring := (list code_unit).

(** A literal of the source, code unit by code unit. *)
Fixpoint lit (s : string) : jsstring :=
  match s with
  | EmptyString => []
  | String c s' => N_of_ascii c :: lit s'
  end.

Definition SPACE : code_unit := 32%N.
Definition LF : code_unit := 10%N.

(** [s.length] *)
Definition length (s : jsstring) : Z := Z.of_nat (List.length s).

(** [!s] for a string [s]: only the empty string is falsy. *)
Definition is_empty (s : jsstring) : bool :=
  match s with
  | [] => true
  | _ :: _ => false
  end.

(** An index argument of [substring], clamped to [0, s.length]. *)
Definition clamp (s : jsstring) (i : Z) : nat :=
  Z.to_nat (Z.min (Z.max i 0) (length s)).

(** [s.substring(indexStart, indexEnd)]; [None] is the omitted end.  Both
    indices are clamped and swapped when out of order. *)
Definition substring (s : jsstring) (indexStart : Z) (indexEnd : option Z)
  : jsstring :=
  let a := clamp s indexStart in
  let b := match indexEnd with
           | Some e => clamp s e
           | None => List.length s
           end in
  firstn (Nat.max a b - Nat.min a b) (skipn (Nat.min a b) s).

(** [s.split(sep)] for a separator of one code unit. *)
Fixpoint split (s : jsstring) (sep : code_unit) : list jsstring :=
  match s with
  | [] => [[]]
  | c :: s' =>
      if N.eqb c sep then [] :: split s' sep
      else match split s' sep with
           | [] => [[c]]
           | w :: ws => (c :: w) :: ws
           end
  end.

(** The code units [trim] strips: ECMAScript's WhiteSpace and
    LineTerminator (TAB, LF, VT, FF, CR, SP, NBSP, U+1680, U+2000..U+200A,
    U+2028, U+2029, U+202F, U+205F, U+3000, U+FEFF). *)
Definition isWhiteSpace (c : code_unit) : bool :=
  (existsb (N.eqb c)
     [9; 10; 11; 12; 13; 32; 160; 5760; 8232; 8233; 8239; 8287; 12288; 65279]
   || ((8192 <=? c) && (c <=? 8202)))%N.

Fixpoint trimStart (s : jsstring) : jsstring :=
  match s with
  | [] => []
  | c :: s' => if isWhiteSpace c then trimStart s' else s
  end.

Definition trimEnd (s : jsstring) : jsstring := rev (trimStart (rev s)).

(** [s.trim()] *)
Definition trim (s : jsstring) : jsstring := trimEnd (trimStart s).

End JS.

Abbreviation jsstring := JS.jsstring.
Abbreviation SPACE := JS.SPACE.
Abbreviation LF := JS.LF.

(** ** textUtils.ts *)

Module TextUtils.

Definition MAX_EMBEDDING_CHUNK_CHAR_LENGTH : Z := 4000.

(** The [while] loop of [splitLongWord], on the pair of its two variables.
    Each unit of fuel pays for one iteration; [None] is a loop that is
    still running when the fuel is spent. *)
Fixpoint splitLongWord_while (fuel : nat) (maxCharLength : Z)
    (parts : list jsstring) (currentPart : jsstring)
  : option (list jsstring * jsstring) :=
  if JS.length currentPart >? maxCharLength then
    match fuel with
    | O => None
    | S fuel' =>
        splitLongWord_while fuel' maxCharLength
          (parts ++ [JS.substring currentPart 0 (Some maxCharLength)])
          (JS.substring currentPart maxCharLength None)
    end
  else Some (parts, currentPart).

Definition splitLongWord_fuel (fuel : nat) (word : jsstring)
    (maxCharLength : Z) : option (list jsstring) :=
  if JS.is_empty word || (maxCharLength <=? 0) then Some []
  else
    match splitLongWord_while fuel maxCharLength [] word with
    | None => None
    | Some (parts, currentPart) =>
        Some (if JS.length currentPart >? 0 then parts ++ [currentPart]
              else parts)
    end.

(** [splitLongWord], run with one unit of fuel per code unit of the word
    (theorem [splitLongWord_fuel_enough] shows this is always enough). *)
Definition splitLongWord (word : jsstring) (maxCharLength : Z)
  : list jsstring :=
  match splitLongWord_fuel (List.length word) word maxCharLength with
  | Some parts => parts
  | None => []
  end.

(** One iteration of [for (const word of words)], on the pair
    [(wordChunks, currentWordChunk)]. *)
Definition splitParagraphByWords_body (maxCharLength : Z)
    (st : list jsstring * jsstring) (word : jsstring)
  : list jsstring * jsstring :=
  let '(wordChunks, currentWordChunk) := st in
  if JS.length word =? 0 then st
  else if JS.length word >? maxCharLength then
    let '(wordChunks1, current1) :=
      if JS.length currentWordChunk >? 0
      then (wordChunks ++ [currentWordChunk], [])
      else (wordChunks, currentWordChunk) in
    (wordChunks1 ++ splitLongWord word maxCharLength, current1)
  else
    let potentialSpace :=
      if JS.length currentWordChunk >? 0 then [SPACE] else [] in
    if JS.length currentWordChunk + JS.length potentialSpace
       + JS.length word <=? maxCharLength
    then (wordChunks, currentWordChunk ++ potentialSpace ++ word)
    else
      ((if JS.length currentWordChunk >? 0
        then wordChunks ++ [currentWordChunk] else wordChunks),
       word).

Definition splitParagraphByWords (paragraph : jsstring) (maxCharLength : Z)
  : list jsstring :=
  if JS.is_empty paragraph || (maxCharLength <=? 0) then []
  else
    let words := JS.split paragraph SPACE in
    let '(wordChunks, currentWordChunk) :=
      fold_left (splitParagraphByWords_body maxCharLength) words ([], []) in
    if JS.length currentWordChunk >? 0
    then wordChunks ++ [currentWordChunk] else wordChunks.

(** [paragraph.trim() === ""] and [chunk.trim() !== ""]. *)
Definition is_blank (s : jsstring) : bool := JS.is_empty (JS.trim s).

(** One iteration of [for (const paragraph of paragraphs)], on the pair
    [(allChunks, currentParagraphChunk)]. *)
Definition chunkText_body (maxCharLength : Z)
    (st : list jsstring * jsstring) (paragraph : jsstring)
  : list jsstring * jsstring :=
  let '(allChunks, currentParagraphChunk) := st in
  if is_blank paragraph then
    if JS.length currentParagraphChunk >? 0 then
      if JS.length currentParagraphChunk + 1 <=? maxCharLength
      then (allChunks, currentParagraphChunk ++ [LF])
      else (allChunks ++ [currentParagraphChunk], [])
    else st
  else if JS.length currentParagraphChunk =? 0 then
    if JS.length paragraph <=? maxCharLength
    then (allChunks, paragraph)
    else (allChunks ++ splitParagraphByWords paragraph maxCharLength,
          currentParagraphChunk)
  else
    if JS.length currentParagraphChunk + 1 + JS.length paragraph
       <=? maxCharLength
    then (allChunks, currentParagraphChunk ++ [LF] ++ paragraph)
    else
      let allChunks1 := allChunks ++ [currentParagraphChunk] in
      if JS.length paragraph <=? maxCharLength
      then (allChunks1, paragraph)
      else (allChunks1 ++ splitParagraphByWords paragraph maxCharLength, []).

Definition chunkText (text : jsstring) (maxCharLength : Z)
  : list jsstring :=
  if JS.is_empty text || (maxCharLength <=? 0) then []
  else
    let paragraphs := JS.split text LF in
    let '(allChunks, currentParagraphChunk) :=
      fold_left (chunkText_body maxCharLength) paragraphs ([], []) in
    let allChunks1 :=
      if JS.length currentParagraphChunk >? 0
      then allChunks ++ [currentParagraphChunk] else allChunks in
    filter (fun chunk => negb (is_blank chunk)) allChunks1.

(** The call with the default argument. *)
Definition chunkText_default (text : jsstring) : list jsstring :=
  chunkText text MAX_EMBEDDING_CHUNK_CHAR_LENGTH.

End TextUtils.

(** ** The same call chain with the fuel of the [while] loop made explicit

    [splitParagraphByWords] and [chunkText] only have [for ... of] loops over
    finite arrays; the one loop that could run on is the [while] of
    [splitLongWord].  Here every run of that loop is given [fuel] iterations
    and a run that needs more makes the whole call [None]. *)

Module Fueled.
Import TextUtils.

Definition bind {A B : Type} (m : option A) (k : A -> option B) : option B :=
  match m with
  | Some a => k a
  | None => None
  end.

Notation "x <- m ;; k" := (bind m (fun x => k))
  (at level 61, m at next level, right associativity).

(** [for (const x of xs)] with a body that may fail to return. *)
Fixpoint for_of {S A : Type} (body : S -> A -> option S) (xs : list A)
    (st : S) : option S :=
  match xs with
  | [] => Some st
  | x :: xs' => st' <- body st x ;; for_of body xs' st'
  end.

Definition splitParagraphByWords_body (fuel : nat) (maxCharLength : Z)
    (st : list jsstring * jsstring) (word : jsstring)
  : option (list jsstring * jsstring) :=
  let '(wordChunks, currentWordChunk) := st in
  if JS.length word =? 0 then Some st
  else if JS.length word >? maxCharLength then
    let '(wordChunks1, current1) :=
      if JS.length currentWordChunk >? 0
      then (wordChunks ++ [currentWordChunk], [])
      else (wordChunks, currentWordChunk) in
    pieces <- splitLongWord_fuel fuel word maxCharLength ;;
    Some (wordChunks1 ++ pieces, current1)
  else
    let potentialSpace :=
      if JS.length currentWordChunk >? 0 then [SPACE] else [] in
    if JS.length currentWordChunk + JS.length potentialSpace
       + JS.length word <=? maxCharLength
    then Some (wordChunks, currentWordChunk ++ potentialSpace ++ word)
    else
      Some ((if JS.length currentWordChunk >? 0
             then wordChunks ++ [currentWordChunk] else wordChunks),
            word).

Definition splitParagraphByWords (fuel : nat) (paragraph : jsstring)
    (maxCharLength : Z) : option (list jsstring) :=
  if JS.is_empty paragraph || (maxCharLength <=? 0) then Some []
  else
    let words := JS.split paragraph SPACE in
    st <- for_of (splitParagraphByWords_body fuel maxCharLength) words
            ([], []) ;;
    let '(wordChunks, currentWordChunk) := st in
    Some (if JS.length currentWordChunk >? 0
          then wordChunks ++ [currentWordChunk] else wordChunks).

Definition chunkText_body (fuel : nat) (maxCharLength : Z)
    (st : list jsstring * jsstring) (paragraph : jsstring)
  : option (list jsstring * jsstring) :=
  let '(allChunks, currentParagraphChunk) := st in
  if is_blank paragraph then
    if JS.length currentParagraphChunk >? 0 then
      if JS.length currentParagraphChunk + 1 <=? maxCharLength
      then Some (allChunks, currentParagraphChunk ++ [LF])
      else Some (allChunks ++ [currentParagraphChunk], [])
    else Some st
  else if JS.length currentParagraphChunk =? 0 then
    if JS.length paragraph <=? maxCharLength
    then Some (allChunks, paragraph)
    else
      pieces <- splitParagraphByWords fuel paragraph maxCharLength ;;
      Some (allChunks ++ pieces, currentParagraphChunk)
  else
    if JS.length currentParagraphChunk + 1 + JS.length paragraph
       <=? maxCharLength
    then Some (allChunks, currentParagraphChunk ++ [LF] ++ paragraph)
    else
      let allChunks1 := allChunks ++ [currentParagraphChunk] in
      if JS.length paragraph <=? maxCharLength
      then Some (allChunks1, paragraph)
      else
        pieces <- splitParagraphByWords fuel paragraph maxCharLength ;;
        Some (allChunks1 ++ pieces, []).

Definition chunkText (fuel : nat) (text : jsstring) (maxCharLength : Z)
  : option (list jsstring) :=
  if JS.is_empty text || (maxCharLength <=? 0) then Some []
  else
    let paragraphs := JS.split text LF in
    st <- for_of (chunkText_body fuel maxCharLength) paragraphs ([], []) ;;
    let '(allChunks, currentParagraphChunk) := st in
    let allChunks1 :=
      if JS.length currentParagraphChunk >? 0
      then allChunks ++ [currentParagraphChunk] else allChunks in
    Some (filter (fun chunk => negb (is_blank chunk)) allChunks1).

End Fueled.

Import TextUtils.

(** ** Vocabulary of the properties *)

(** A string with its white space removed. *)
Definition strip_ws (s : jsstring) : jsstring :=
  filter (fun c => negb (JS.isWhiteSpace c)) s.

(** White-space-only (the empty string included). *)
Definition whitespace_only (s : jsstring) : bool :=
  forallb JS.isWhiteSpace s.

Definition starts_with_space (s : jsstring) : bool :=
  N.eqb (hd 0%N s) SPACE.

Definition ends_with_space (s : jsstring) : bool :=
  N.eqb (last s 0%N) SPACE.

Fixpoint has_double_space (s : jsstring) : bool :=
  match s with
  | c1 :: s' =>
      (N.eqb c1 SPACE && starts_with_space s') || has_double_space s'
  | [] => false
  end.

(** The longest run of consecutive elements satisfying [p]. *)
Fixpoint longest_run {A : Type} (p : A -> bool) (l : list A)
    (cur best : nat) : nat :=
  match l with
  | [] => Nat.max cur best
  | x :: l' =>
      if p x then longest_run p l' (S cur) best
      else longest_run p l' 0%nat (Nat.max cur best)
  end.

(** How many blank lines in a row a chunk holds at most. *)
Definition blank_lines_in_a_row (chunk : jsstring) : nat :=
  longest_run is_blank (JS.split chunk LF) 0%nat 0%nat.

(** The text a loop state holds: the chunks pushed so far, then the pending
    chunk. *)
Definition held (st : list jsstring * jsstring) : jsstring :=
  concat (fst st) ++ snd st.

(** A loop state whose chunks, pushed and pending, all satisfy [P]. *)
Definition all_chunks (P : jsstring -> Prop)
    (st : list jsstring * jsstring) : Prop :=
  Forall P (fst st) /\ P (snd st).

(** A chunk within the limit. *)
Definition within (maxCharLength : Z) (s : jsstring) : Prop :=
  JS.length s <= maxCharLength.

(** No leading space, no trailing space, no two spaces in a row. *)
Definition tidy (s : jsstring) : Prop :=
  starts_with_space s = false
  /\ ends_with_space s = false
  /\ has_double_space s = false.

(** ** Vocabulary of the further properties *)

(** The words of a pending chunk: none when it is empty. *)
Definition words_of (chunk : jsstring) : list jsstring :=
  if JS.is_empty chunk then [] else JS.split chunk SPACE.

(** The words a loop state of the word packer holds. *)
Definition held_words (st : list jsstring * jsstring) : list jsstring :=
  flat_map (fun chunk => JS.split chunk SPACE) (fst st) ++ words_of (snd st).

(** The non-empty words of a paragraph, as the word packer sees them. *)
Definition words (paragraph : jsstring) : list jsstring :=
  filter (fun w => negb (JS.is_empty w)) (JS.split paragraph SPACE).

(** The code units of all chunks together. *)
Definition total_length (chunks : list jsstring) : Z :=
  JS.length (concat chunks).

(** A chunk whose first line is not blank and whose blank lines are
    empty. *)
Definition well_lined (chunk : jsstring) : Prop :=
  is_blank (hd [] (JS.split chunk LF)) = false
  /\ forall line, In line (JS.split chunk LF) ->
                  is_blank line = true -> line = [].

(** A string without a line break. *)
Definition no_break (c : jsstring) : Prop := ~ In LF c.

(** The invariant of the paragraph loop: a pushed chunk that is not blank
    is well lined, and so is the pending chunk unless it is empty. *)
Definition lined (st : list jsstring * jsstring) : Prop :=
  Forall (fun c => is_blank c = false -> well_lined c) (fst st)
  /\ (snd st = [] \/ well_lined (snd st)).

(** One loop iteration on an item of [n] code units: the held text grows
    by at most the item and one separator, and by no separator when
    nothing was held. *)
Definition grows_by (st st' : list jsstring * jsstring) (n : Z) : Prop :=
  JS.length (held st') <= JS.length (held st) + n + 1
  /\ (JS.length (held st) = 0 -> JS.length (held st') <= n).

(** The held text with the separator that would precede the next item. *)
Definition room (st : list jsstring * jsstring) : Z :=
  if JS.length (held st) =? 0 then 0 else JS.length (held st) + 1.

(** The code units of the pieces of a split, one separator each. *)
Definition cost (pieces : list jsstring) : Z :=
  fold_right (fun w acc => JS.length w + 1 + acc) 0 pieces.

(** The first word of a chunk. *)
Definition first_word (chunk : jsstring) : jsstring :=
  hd [] (JS.split chunk SPACE).

(** No chunk had room for the first word of the chunk after it. *)
Fixpoint tightly_packed (limit : Z) (chunks : list jsstring) : Prop :=
  match chunks with
  | c1 :: rest =>
      match rest with
      | c2 :: _ => JS.length c1 + 1 + JS.length (first_word c2) > limit
      | [] => True
      end
      /\ tightly_packed limit rest
  | [] => True
  end.

(** The chunks a loop state yields when the pending chunk is flushed. *)
Definition flushed (st : list jsstring * jsstring) : list jsstring :=
  if JS.length (snd st) >? 0 then fst st ++ [snd st] else fst st.

(** The invariant of the word loop when no word is force-split. *)
Definition packed (limit : Z) (st : list jsstring * jsstring) : Prop :=
  tightly_packed limit (flushed st) /\ (snd st = [] -> fst st = []).

(** ** The import route (src/app/api/datasets/route.ts)

    The pure parts of the import handler and its helpers.  The embedding
    service and the database are outside the program: the outcome of
    embedding and storing the chunk at an index is a parameter. *)

Module DatasetsRoute.

(** A code unit of the class [[a-zA-Z0-9_]]. *)
Definition isWordChar (c : JS.code_unit) : bool :=
  (((97 <=? c) && (c <=? 122)) || ((65 <=? c) && (c <=? 90))
   || ((48 <=? c) && (c <=? 57)) || (c =? 95))%N.

(** [/^[a-zA-Z0-9_]+$/.test(s)]: the whole string, one code unit or more. *)
Definition testIdentifier (s : jsstring) : bool :=
  negb (JS.is_empty s) && forallb isWordChar s.

(** [!datasetName || datasetName.trim() === ""], for a form field that may
    be missing. *)
Definition name_missing (datasetName : option jsstring) : bool :=
  match datasetName with
  | None => true
  | Some name => JS.is_empty name || is_blank name
  end.

(** [!/^[a-zA-Z0-9_]+$/.test(datasetName) || datasetName.length > 50], the
    test of the handler and of [ensureDatasetTableExists]. *)
Definition name_invalid (datasetName : jsstring) : bool :=
  negb (testIdentifier datasetName) || (JS.length datasetName >? 50).

(** [!/^[a-zA-Z0-9_]+$/.test(datasetName)], the test of
    [retrieveContextFromDB]. *)
Definition name_invalid_for_query (datasetName : jsstring) : bool :=
  negb (testIdentifier datasetName).

(** [`idx_hnsw_${datasetName}_embedding`] *)
Definition indexName (datasetName : jsstring) : jsstring :=
  JS.lit "idx_hnsw_" ++ datasetName ++ JS.lit "_embedding".

(** The loop over the chunks, from index [i] on, on the pair
    [(successfulEmbeddingsAndStorage, failedOperations)]; [process i chunk]
    tells whether embedding and storing [chunks[i]] went through without
    throwing. *)
Fixpoint import_loop (process : nat -> jsstring -> bool) (i : nat)
    (chunks : list jsstring) (counts : Z * Z) : Z * Z :=
  match chunks with
  | [] => counts
  | chunk :: rest =>
      let '(successful, failed) := counts in
      import_loop process (S i) rest
        (if is_blank chunk then counts
         else if process i chunk then (successful + 1, failed)
              else (successful, failed + 1))
  end.

(** What the handler answers once the content is chosen. *)
Inductive import_response : Type :=
| Failed500
| Finished200 (chunksProcessedAndStored chunksFailed : Z).

(** The handler from the call of [chunkText] to its response. *)
Definition import_content (process : nat -> jsstring -> bool)
    (contentToProcess : jsstring) : import_response :=
  let chunks := chunkText contentToProcess MAX_EMBEDDING_CHUNK_CHAR_LENGTH in
  let '(successful, failed) := import_loop process 0 chunks (0, 0) in
  if (successful =? 0)
     && (JS.length (JS.trim contentToProcess) >? 0)
     && (Z.of_nat (List.length chunks) >? 0)
  then Failed500
  else Finished200 successful failed.

End DatasetsRoute.

(** ** Tactics *)

(** Linear arithmetic over string lengths. *)
Ltac len_lia :=
  unfold JS.length in *;
  repeat first [ rewrite List.length_app in *
               | progress cbn [List.length] in * ];
  lia.

Ltac chunks_ok :=
  unfold all_chunks in *; simpl fst in *; simpl snd in *;
  repeat match goal with
         | H : _ /\ _ |- _ => destruct H
         | |- _ /\ _ => split
         | |- Forall _ (_ ++ _) => apply Forall_app
         | |- Forall _ [_] => constructor
         | |- Forall _ [] => constructor
         end; auto.

(** Arithmetic over the lengths of held texts. *)
Ltac held_lengths :=
  unfold grows_by, held; cbn [fst snd];
  rewrite ?concat_app; cbn [concat]; rewrite ?app_nil_r;
  len_lia.

(** ** Facts about the string primitives *)

Section JSFacts.

Lemma length_nonneg (s : jsstring) : 0 <= JS.length s.
Proof. unfold JS.length; lia. Qed.

Lemma length_app (s t : jsstring) :
  JS.length (s ++ t) = JS.length s + JS.length t.
Proof. unfold JS.length; rewrite List.length_app; lia. Qed.

Lemma length_pos_iff (s : jsstring) :
  (JS.length s >? 0) = negb (JS.is_empty s).
Proof. destruct s; reflexivity. Qed.

Lemma length_zero_iff (s : jsstring) :
  (JS.length s =? 0) = JS.is_empty s.
Proof. destruct s; reflexivity. Qed.

Lemma is_empty_true (s : jsstring) : JS.is_empty s = true <-> s = [].
Proof. destruct s; simpl; split; congruence. Qed.

Lemma is_empty_false (s : jsstring) : JS.is_empty s = false <-> s <> [].
Proof. destruct s; simpl; split; congruence. Qed.

(** [s.substring(0, n)] is the prefix of [n] code units. *)
Lemma substring_prefix (s : jsstring) (n : Z) :
  JS.substring s 0 (Some n) = firstn (Z.to_nat n) s.
Proof.
  unfold JS.substring, JS.clamp, JS.length.
  replace (Z.to_nat (Z.min (Z.max 0 0) (Z.of_nat (List.length s))))
    with 0%nat by lia.
  rewrite Nat.min_0_l, Nat.max_0_l, Nat.sub_0_r. simpl skipn.
  destruct (Z_le_gt_dec n (Z.of_nat (List.length s))) as [Hle | Hgt].
  - f_equal. lia.
  - rewrite !firstn_all2; trivial; lia.
Qed.

(** [s.substring(n)] drops the first [n] code units. *)
Lemma substring_suffix (s : jsstring) (n : Z) :
  JS.substring s n None = skipn (Z.to_nat n) s.
Proof.
  unfold JS.substring, JS.clamp, JS.length.
  set (a := Z.to_nat (Z.min (Z.max n 0) (Z.of_nat (List.length s)))).
  assert (Ha : (a <= List.length s)%nat) by (subst a; lia).
  rewrite Nat.min_l, Nat.max_r by exact Ha.
  rewrite firstn_all2 by (rewrite length_skipn; lia).
  destruct (Z_le_gt_dec n (Z.of_nat (List.length s))) as [Hle | Hgt].
  - f_equal. subst a. lia.
  - rewrite !skipn_all2; trivial; subst a; lia.
Qed.

Lemma split_not_nil (s : jsstring) (sep : N) : JS.split s sep <> [].
Proof.
  destruct s as [| c s]; simpl; [discriminate |].
  destruct (N.eqb c sep); [discriminate |].
  destruct (JS.split s sep); discriminate.
Qed.

(** Splitting and gluing back with the separator is the identity. *)
Lemma split_join (s : jsstring) (sep : N) :
  exists p ps, JS.split s sep = p :: ps
               /\ s = p ++ concat (map (cons sep) ps).
Proof.
  induction s as [| c s (p & ps & Hsplit & Hs)]; simpl.
  - exists [], []. split; reflexivity.
  - destruct (N.eqb_spec c sep) as [-> | Hne].
    + exists [], (p :: ps). rewrite Hsplit. simpl.
      split; [reflexivity | f_equal; exact Hs].
    + rewrite Hsplit. exists (c :: p), ps. simpl.
      split; [reflexivity | f_equal; exact Hs].
Qed.

(** No piece of a split holds the separator. *)
Lemma split_no_sep (s : jsstring) (sep : N) (w : jsstring) :
  In w (JS.split s sep) -> ~ In sep w.
Proof.
  revert w. induction s as [| c s IH]; simpl; intros w Hw.
  - destruct Hw as [<- | []]. intros [].
  - destruct (N.eqb_spec c sep) as [-> | Hne].
    + destruct Hw as [<- | Hw]; [intros [] | now apply IH].
    + destruct (JS.split s sep) as [| p ps] eqn:Hsplit.
      * destruct Hw as [<- | []]. intros [H | []]. congruence.
      * destruct Hw as [<- | Hw].
        -- intros [H | H]; [congruence |]. apply (IH p); simpl; auto.
        -- apply IH. simpl; auto.
Qed.

(** A piece of a split is no longer than the string. *)
Lemma split_piece_length (s : jsstring) (sep : N) (w : jsstring) :
  In w (JS.split s sep) -> (List.length w <= List.length s)%nat.
Proof.
  revert w. induction s as [| c s IH]; simpl; intros w Hw.
  - destruct Hw as [<- | []]. simpl; lia.
  - destruct (N.eqb c sep).
    + destruct Hw as [<- | Hw]; [simpl; lia |].
      specialize (IH w Hw). lia.
    + destruct (JS.split s sep) as [| p ps] eqn:Hsplit.
      * destruct Hw as [<- | []]. simpl; lia.
      * destruct Hw as [<- | Hw].
        -- specialize (IH p (or_introl eq_refl)). simpl; lia.
        -- specialize (IH w (or_intror Hw)). lia.
Qed.

(** A string without the separator is its own single piece. *)
Lemma split_no_occurrence (s : jsstring) (sep : N) :
  ~ In sep s -> JS.split s sep = [s].
Proof.
  induction s as [| c s IH]; simpl; intros Hs; [reflexivity |].
  destruct (N.eqb_spec c sep) as [-> | Hne]; [tauto |].
  rewrite IH by tauto. reflexivity.
Qed.

Lemma split_app_sep (a r : jsstring) (sep : N) :
  ~ In sep a -> JS.split (a ++ sep :: r) sep = a :: JS.split r sep.
Proof.
  induction a as [| c a IH]; simpl; intros Ha.
  - rewrite N.eqb_refl. reflexivity.
  - destruct (N.eqb_spec c sep) as [-> | Hne]; [tauto |].
    rewrite IH by tauto. reflexivity.
Qed.

Lemma trimStart_nil (s : jsstring) :
  JS.trimStart s = [] <-> whitespace_only s = true.
Proof.
  induction s as [| c s IH]; simpl; [tauto |].
  destruct (JS.isWhiteSpace c); simpl; [exact IH |].
  split; discriminate.
Qed.

Lemma whitespace_only_trimStart (s : jsstring) :
  whitespace_only (JS.trimStart s) = whitespace_only s.
Proof.
  induction s as [| c s IH]; simpl; [reflexivity |].
  destruct (JS.isWhiteSpace c) eqn:Hc; simpl; [exact IH |].
  now rewrite Hc.
Qed.

Lemma whitespace_only_rev (s : jsstring) :
  whitespace_only (rev s) = whitespace_only s.
Proof.
  unfold whitespace_only.
  induction s as [| c s IH]; simpl; [reflexivity |].
  rewrite forallb_app, IH. simpl. rewrite andb_true_r. apply andb_comm.
Qed.

(** [s.trim() === ""] exactly when [s] holds white space only. *)
Lemma is_blank_whitespace_only (s : jsstring) :
  is_blank s = whitespace_only s.
Proof.
  unfold is_blank, JS.trim, JS.trimEnd.
  rewrite <- (whitespace_only_trimStart s),
          <- (whitespace_only_rev (JS.trimStart s)).
  set (t := rev (JS.trimStart s)).
  destruct (whitespace_only t) eqn:Ht.
  - apply trimStart_nil in Ht. rewrite Ht. reflexivity.
  - destruct (JS.trimStart t) as [| c u] eqn:Hts.
    + apply trimStart_nil in Hts. congruence.
    + simpl. destruct (rev u); reflexivity.
Qed.

Lemma strip_ws_app (s t : jsstring) :
  strip_ws (s ++ t) = strip_ws s ++ strip_ws t.
Proof. apply filter_app. Qed.

Lemma strip_ws_blank (s : jsstring) :
  is_blank s = true -> strip_ws s = [].
Proof.
  rewrite is_blank_whitespace_only. unfold whitespace_only, strip_ws.
  induction s as [| c s IH]; simpl; [reflexivity |].
  intros [Hc Hs]%andb_prop. rewrite Hc. simpl. auto.
Qed.

Lemma is_blank_app (s t : jsstring) :
  is_blank (s ++ t) = is_blank s && is_blank t.
Proof.
  rewrite !is_blank_whitespace_only. apply forallb_app.
Qed.

Lemma is_blank_nil : is_blank [] = true.
Proof. reflexivity. Qed.

End JSFacts.

(** ** The hard word splitter *)

Section SplitLongWord.

Variable maxCharLength : Z.

(** More fuel never changes the outcome of a run that finished. *)
Lemma splitLongWord_while_more_fuel (fuel fuel' : nat) parts currentPart r :
  (fuel <= fuel')%nat ->
  splitLongWord_while fuel maxCharLength parts currentPart = Some r ->
  splitLongWord_while fuel' maxCharLength parts currentPart = Some r.
Proof.
  revert fuel' parts currentPart.
  induction fuel as [| fuel IH]; intros fuel' parts cur Hle Hrun.
  - destruct fuel'; simpl in *;
      destruct (JS.length cur >? maxCharLength); congruence.
  - destruct fuel' as [| fuel']; [lia |]. simpl in *.
    destruct (JS.length cur >? maxCharLength); [| exact Hrun].
    apply IH; [lia | exact Hrun].
Qed.

Hypothesis limit_pos : 0 < maxCharLength.

(** With a positive limit the loop, given one unit of fuel per code unit,
    stops; it has cut full slices off the front and left a remainder. *)
Lemma splitLongWord_while_spec (fuel : nat) parts currentPart :
  (List.length currentPart <= fuel)%nat ->
  exists slices rest,
    splitLongWord_while fuel maxCharLength parts currentPart
      = Some (parts ++ slices, rest)
    /\ concat slices ++ rest = currentPart
    /\ Forall (fun p => JS.length p = maxCharLength) slices
    /\ JS.length rest <= maxCharLength
    /\ (currentPart <> [] -> rest <> []).
Proof.
  revert parts currentPart.
  induction fuel as [| fuel IH]; intros parts cur Hfuel.
  - destruct cur; [| simpl in Hfuel; lia].
    exists [], []. simpl.
    destruct (Z.gtb_spec (JS.length []) maxCharLength) as [Hlong | _];
      [unfold JS.length in Hlong; simpl in Hlong; lia |].
    rewrite app_nil_r. repeat split; auto. unfold JS.length; simpl; lia.
  - simpl. destruct (JS.length cur >? maxCharLength) eqn:Hlong.
    + rewrite substring_prefix, substring_suffix.
      set (n := Z.to_nat maxCharLength).
      rewrite Z.gtb_ltb in Hlong. apply Z.ltb_lt in Hlong.
      unfold JS.length in Hlong.
      assert (Hn : (0 < n < List.length cur)%nat) by (subst n; lia).
      destruct (IH (parts ++ [firstn n cur]) (skipn n cur))
        as (slices & rest & Hrun & Hcat & Hfull & Hrest & Hne).
      { rewrite length_skipn. lia. }
      exists (firstn n cur :: slices), rest.
      rewrite Hrun, <- app_assoc. simpl.
      repeat split; auto.
      * rewrite <- app_assoc, Hcat. apply firstn_skipn.
      * constructor; [| exact Hfull].
        unfold JS.length. rewrite length_firstn. subst n. lia.
      * intros _. apply Hne. intros Hnil.
        apply (f_equal (@List.length _)) in Hnil.
        rewrite length_skipn in Hnil. simpl in Hnil. lia.
    + exists [], cur. rewrite app_nil_r.
      rewrite Z.gtb_ltb in Hlong. apply Z.ltb_ge in Hlong.
      repeat split; auto.
Qed.

(** What a call returns for a non-empty word: full slices, then a
    remainder of 1 to [maxCharLength] code units. *)
Lemma splitLongWord_spec (word : jsstring) :
  word <> [] ->
  exists slices rest,
    splitLongWord word maxCharLength = slices ++ [rest]
    /\ concat slices ++ rest = word
    /\ Forall (fun p => JS.length p = maxCharLength) slices
    /\ 1 <= JS.length rest <= maxCharLength.
Proof.
  intros Hne. unfold splitLongWord, splitLongWord_fuel.
  replace (JS.is_empty word) with false
    by (symmetry; now apply is_empty_false).
  replace (maxCharLength <=? 0) with false by (symmetry; apply Z.leb_gt; lia).
  simpl orb. cbv iota.
  destruct (splitLongWord_while_spec (List.length word) [] word (le_n _))
    as (slices & rest & Hrun & Hcat & Hfull & Hrest & Hrne).
  rewrite Hrun. simpl app. specialize (Hrne Hne).
  exists slices, rest.
  rewrite length_pos_iff.
  replace (JS.is_empty rest) with false
    by (symmetry; now apply is_empty_false).
  simpl. repeat split; auto.
  destruct rest; [congruence |]. unfold JS.length; simpl; lia.
Qed.

Lemma splitLongWord_empty : splitLongWord [] maxCharLength = [].
Proof. reflexivity. Qed.

(** The pieces put together are the word. *)
Lemma splitLongWord_concat (word : jsstring) :
  concat (splitLongWord word maxCharLength) = word.
Proof.
  destruct word as [| c word]; [reflexivity |].
  destruct (splitLongWord_spec (c :: word)) as (sl & rest & -> & Hcat & _);
    [discriminate |].
  rewrite concat_app. simpl. rewrite app_nil_r. exact Hcat.
Qed.

(** Every piece has 1 to [maxCharLength] code units. *)
Lemma splitLongWord_piece_length (word piece : jsstring) :
  In piece (splitLongWord word maxCharLength) ->
  1 <= JS.length piece <= maxCharLength.
Proof.
  destruct word as [| c word]; [intros [] |].
  destruct (splitLongWord_spec (c :: word))
    as (sl & rest & -> & _ & Hfull & Hrest); [discriminate |].
  intros [Hin | [<- | []]]%in_app_or; [| exact Hrest].
  rewrite Forall_forall in Hfull. rewrite (Hfull _ Hin). lia.
Qed.

End SplitLongWord.

(** Enough fuel: one unit per code unit of the word, whatever the limit. *)
Lemma splitLongWord_fuel_enough (word : jsstring) (maxCharLength : Z)
    (fuel : nat) :
  (List.length word <= fuel)%nat ->
  splitLongWord_fuel fuel word maxCharLength
  = Some (splitLongWord word maxCharLength).
Proof.
  intros Hfuel. unfold splitLongWord, splitLongWord_fuel.
  destruct (JS.is_empty word || (maxCharLength <=? 0)) eqn:Hguard;
    [reflexivity |].
  apply orb_false_elim in Hguard. destruct Hguard as [_ Hpos].
  apply Z.leb_gt in Hpos.
  destruct (splitLongWord_while_spec maxCharLength Hpos
              (List.length word) [] word (le_n _))
    as (slices & rest & Hrun & _).
  rewrite (splitLongWord_while_more_fuel maxCharLength _ fuel _ _ _ Hfuel Hrun).
  rewrite Hrun. reflexivity.
Qed.

(** ** Loops as folds *)

Lemma fold_left_invariant {S A : Type} (body : S -> A -> S)
    (P : S -> Prop) (Q : A -> Prop) (l : list A) :
  (forall st x, Q x -> P st -> P (body st x)) ->
  Forall Q l -> forall st, P st -> P (fold_left body l st).
Proof.
  intros Hbody. induction 1 as [| x l Hx _ IH]; intros st Hst; simpl; auto.
Qed.

Lemma all_chunks_flush (P : jsstring -> Prop) chunks (cur : jsstring) :
  all_chunks P (chunks, cur) ->
  Forall P (if JS.length cur >? 0 then chunks ++ [cur] else chunks).
Proof.
  intros [Hchunks Hcur]. simpl in *.
  destruct (JS.length cur >? 0); auto.
  apply Forall_app. auto.
Qed.

(** ** The word packer *)

Section SplitParagraphByWords.

Variable maxCharLength : Z.
Hypothesis limit_pos : 0 < maxCharLength.

Lemma within_nil : within maxCharLength [].
Proof. unfold within, JS.length. simpl. lia. Qed.

Lemma splitLongWord_within (word : jsstring) :
  Forall (within maxCharLength) (splitLongWord word maxCharLength).
Proof.
  apply Forall_forall. intros piece Hin.
  apply (splitLongWord_piece_length _ limit_pos) in Hin.
  unfold within. lia.
Qed.

Lemma splitParagraphByWords_body_within st (word : jsstring) :
  all_chunks (within maxCharLength) st ->
  all_chunks (within maxCharLength) (splitParagraphByWords_body maxCharLength st word).
Proof.
  destruct st as [chunks cur]. intros Hst.
  pose proof within_nil. pose proof (splitLongWord_within word).
  unfold splitParagraphByWords_body.
  destruct (JS.length word =? 0); [exact Hst |].
  destruct (Z.gtb_spec (JS.length word) maxCharLength) as [Hlong | Hshort].
  - destruct (JS.length cur >? 0); chunks_ok.
  - destruct (JS.length cur >? 0);
      match goal with
      | |- context [?a <=? ?b] => destruct (Z.leb_spec a b)
      end; chunks_ok; unfold within in *; len_lia.
Qed.

(** Every chunk of the word packer is within the limit. *)
Lemma splitParagraphByWords_within (paragraph : jsstring) :
  Forall (within maxCharLength) (splitParagraphByWords paragraph maxCharLength).
Proof.
  unfold splitParagraphByWords.
  destruct (JS.is_empty paragraph || (maxCharLength <=? 0)); [constructor |].
  cbv zeta.
  destruct (fold_left _ _ _) as [chunks cur] eqn:Hloop.
  apply all_chunks_flush. rewrite <- Hloop.
  apply fold_left_invariant with (Q := fun _ => True).
  - intros st w _. apply splitParagraphByWords_body_within.
  - apply Forall_forall. trivial.
  - split; [constructor | apply within_nil].
Qed.

(** One iteration adds the word to the held text, up to a space. *)
Lemma splitParagraphByWords_body_held st (word : jsstring) :
  strip_ws (held (splitParagraphByWords_body maxCharLength st word))
  = strip_ws (held st) ++ strip_ws word.
Proof.
  destruct st as [chunks cur]. unfold splitParagraphByWords_body.
  rewrite length_zero_iff, !length_pos_iff.
  destruct word as [| c word]; simpl JS.is_empty; cbv iota.
  { simpl. now rewrite app_nil_r. }
  set (w := c :: word).
  destruct (JS.length w >? maxCharLength).
  - destruct cur as [| d cur]; simpl negb; cbv iota;
      unfold held; cbn [fst snd];
      rewrite ?concat_app, (splitLongWord_concat _ limit_pos);
      cbn [concat]; rewrite ?app_nil_r, ?strip_ws_app, <- ?app_assoc;
      reflexivity.
  - destruct cur as [| d cur]; simpl negb; cbv iota; cbv zeta;
      match goal with
      | |- context [?a <=? ?b] => destruct (a <=? b)
      end; unfold held; cbn [fst snd];
      rewrite ?concat_app; cbn [concat];
      rewrite ?app_nil_r, ?strip_ws_app; change (strip_ws [SPACE]) with (@nil N);
      rewrite ?app_nil_r, <- ?app_assoc; reflexivity.
Qed.

Lemma splitParagraphByWords_fold_held words st :
  strip_ws (held (fold_left (splitParagraphByWords_body maxCharLength)
                    words st))
  = strip_ws (held st) ++ strip_ws (concat words).
Proof.
  revert st. induction words as [| w words IH]; intros st; simpl.
  - now rewrite app_nil_r.
  - rewrite IH, splitParagraphByWords_body_held, strip_ws_app.
    now rewrite app_assoc.
Qed.

End SplitParagraphByWords.

Lemma strip_ws_concat_split (s : jsstring) (sep : N) :
  JS.isWhiteSpace sep = true ->
  strip_ws (concat (JS.split s sep)) = strip_ws s.
Proof.
  intros Hsep.
  destruct (split_join s sep) as (p & ps & -> & ->).
  simpl. rewrite !strip_ws_app. f_equal.
  induction ps as [| q ps IH]; simpl; [reflexivity |].
  rewrite Hsep. simpl. rewrite !strip_ws_app. now f_equal.
Qed.

(** The word packer keeps every code unit that is not white space, in
    order. *)
Lemma splitParagraphByWords_strip_ws (paragraph : jsstring)
    (maxCharLength : Z) :
  0 < maxCharLength ->
  strip_ws (concat (splitParagraphByWords paragraph maxCharLength))
  = strip_ws paragraph.
Proof.
  intros Hpos. unfold splitParagraphByWords.
  replace (maxCharLength <=? 0) with false by (symmetry; apply Z.leb_gt; lia).
  rewrite orb_false_r.
  destruct paragraph as [| c paragraph]; [reflexivity |].
  simpl JS.is_empty. cbv iota zeta.
  set (p := c :: paragraph).
  pose proof (splitParagraphByWords_fold_held maxCharLength Hpos
                (JS.split p SPACE) ([], [])) as Hheld.
  destruct (fold_left _ _ _) as [chunks cur].
  rewrite strip_ws_concat_split in Hheld by reflexivity.
  change (strip_ws (held ([], [])) ++ strip_ws p) with (strip_ws p) in Hheld.
  rewrite <- Hheld. f_equal.
  rewrite length_pos_iff. unfold held. simpl fst. simpl snd.
  destruct cur; simpl negb; cbv iota.
  - now rewrite app_nil_r.
  - rewrite concat_app. simpl. now rewrite app_nil_r.
Qed.

(** ** Spaces in the chunks of the word packer *)

Section Spaces.

Lemma last_In (s : jsstring) (d : N) : s <> [] -> In (last s d) s.
Proof.
  induction s as [| c s IH]; [congruence |]. intros _.
  destruct s as [| c' s]; [now left |].
  right. apply IH. discriminate.
Qed.

Lemma last_app_nonempty (s t : jsstring) (d : N) :
  t <> [] -> last (s ++ t) d = last t d.
Proof.
  intros Ht. induction s as [| c s IH]; [reflexivity |].
  simpl. destruct (s ++ t) eqn:Hst; [| exact IH].
  apply app_eq_nil in Hst. tauto.
Qed.

Lemma has_double_space_app (s t : jsstring) :
  has_double_space (s ++ t)
  = has_double_space s || has_double_space t
    || (ends_with_space s && starts_with_space t).
Proof.
  induction s as [| c s IH].
  - simpl. now rewrite orb_false_r.
  - cbn [app has_double_space]. rewrite IH.
    destruct s as [| c' s].
    + unfold ends_with_space, starts_with_space. simpl.
      destruct (N.eqb c SPACE), (has_double_space t), (N.eqb (hd 0%N t) SPACE);
        reflexivity.
    + change (ends_with_space (c :: c' :: s))
        with (ends_with_space (c' :: s)).
      change (starts_with_space ((c' :: s) ++ t))
        with (starts_with_space (c' :: s)).
      destruct (N.eqb c SPACE), (starts_with_space (c' :: s)),
        (has_double_space (c' :: s)), (has_double_space t),
        (ends_with_space (c' :: s)), (starts_with_space t); reflexivity.
Qed.

Lemma not_space (c : N) : c <> SPACE -> N.eqb c SPACE = false.
Proof. apply N.eqb_neq. Qed.

Lemma space_free_tidy (s : jsstring) : ~ In SPACE s -> tidy s.
Proof.
  intros Hs. repeat split.
  - destruct s as [| c s]; [reflexivity |].
    apply not_space. simpl. intros ->. apply Hs. now left.
  - destruct s as [| c s]; [reflexivity |].
    apply not_space. intros Heq. apply Hs. rewrite <- Heq.
    apply last_In. discriminate.
  - induction s as [| c s IH]; [reflexivity |]. simpl.
    rewrite not_space by (intros ->; apply Hs; now left).
    apply IH. intros H. apply Hs. now right.
Qed.

(** Adding one space and a word keeps a non-empty chunk tidy. *)
Lemma tidy_add_word (cur word : jsstring) :
  cur <> [] -> tidy cur -> word <> [] -> ~ In SPACE word ->
  tidy (cur ++ SPACE :: word).
Proof.
  intros Hcur (Hs & He & Hd) Hword Hfree.
  destruct (space_free_tidy word Hfree) as (Hws & Hwe & Hwd).
  repeat split.
  - destruct cur; [congruence | exact Hs].
  - unfold ends_with_space.
    rewrite last_app_nonempty by discriminate.
    destruct word as [| c word]; [congruence | exact Hwe].
  - rewrite has_double_space_app. rewrite Hd, He. simpl.
    now rewrite Hws, Hwd.
Qed.

Variable maxCharLength : Z.
Hypothesis limit_pos : 0 < maxCharLength.

Lemma splitLongWord_space_free (word : jsstring) :
  ~ In SPACE word ->
  Forall tidy (splitLongWord word maxCharLength).
Proof.
  intros Hfree. apply Forall_forall. intros piece Hin.
  apply space_free_tidy. intros Hsp. apply Hfree.
  rewrite <- (splitLongWord_concat _ limit_pos word).
  apply in_concat. eauto.
Qed.

Lemma splitParagraphByWords_body_tidy st (word : jsstring) :
  ~ In SPACE word ->
  all_chunks tidy st ->
  all_chunks tidy (splitParagraphByWords_body maxCharLength st word).
Proof.
  destruct st as [chunks cur]. intros Hfree Hst.
  pose proof (space_free_tidy [] (fun H => H)) as Hnil.
  pose proof (splitLongWord_space_free word Hfree).
  pose proof (space_free_tidy word Hfree).
  unfold splitParagraphByWords_body.
  rewrite length_zero_iff, !length_pos_iff.
  destruct word as [| c word]; [exact Hst |]. simpl JS.is_empty. cbv iota.
  set (w := c :: word) in *.
  destruct (JS.length w >? maxCharLength).
  - destruct cur; simpl negb; cbv iota; chunks_ok.
  - destruct cur as [| d cur]; simpl negb; cbv iota zeta;
      match goal with
      | |- context [?a <=? ?b] => destruct (a <=? b)
      end; chunks_ok.
    apply (tidy_add_word (d :: cur) w); auto; discriminate.
Qed.

Lemma splitParagraphByWords_tidy (paragraph : jsstring) :
  Forall tidy (splitParagraphByWords paragraph maxCharLength).
Proof.
  unfold splitParagraphByWords.
  destruct (JS.is_empty paragraph || (maxCharLength <=? 0)); [constructor |].
  cbv zeta.
  destruct (fold_left _ _ _) as [chunks cur] eqn:Hloop.
  apply all_chunks_flush. rewrite <- Hloop.
  apply fold_left_invariant with (Q := fun w => ~ In SPACE w).
  - intros st w. apply splitParagraphByWords_body_tidy.
  - apply Forall_forall. intros w. apply split_no_sep.
  - split; [constructor | apply space_free_tidy; intros []].
Qed.

End Spaces.

(** ** The paragraph splitter *)

Lemma strip_ws_drop_blank (chunks : list jsstring) :
  strip_ws (concat (filter (fun chunk => negb (is_blank chunk)) chunks))
  = strip_ws (concat chunks).
Proof.
  induction chunks as [| c chunks IH]; simpl; [reflexivity |].
  destruct (is_blank c) eqn:Hc; simpl; rewrite strip_ws_app, IH.
  - now rewrite (strip_ws_blank c Hc).
  - now rewrite strip_ws_app.
Qed.

Lemma concat_flush (chunks : list jsstring) (cur : jsstring) :
  concat (if JS.length cur >? 0 then chunks ++ [cur] else chunks)
  = held (chunks, cur).
Proof.
  rewrite length_pos_iff. unfold held. simpl fst. simpl snd.
  destruct cur; simpl negb; cbv iota.
  - now rewrite app_nil_r.
  - rewrite concat_app. simpl. now rewrite app_nil_r.
Qed.

Section ChunkText.

Variable maxCharLength : Z.
Hypothesis limit_pos : 0 < maxCharLength.

Lemma chunkText_body_within st (paragraph : jsstring) :
  all_chunks (within maxCharLength) st ->
  all_chunks (within maxCharLength) (chunkText_body maxCharLength st paragraph).
Proof.
  destruct st as [chunks cur]. intros Hst.
  pose proof (within_nil maxCharLength limit_pos) as Hnil.
  pose proof (splitParagraphByWords_within maxCharLength limit_pos paragraph)
    as Hwords.
  unfold chunkText_body.
  destruct (is_blank paragraph).
  - destruct (JS.length cur >? 0); [| exact Hst].
    destruct (Z.leb_spec (JS.length cur + 1) maxCharLength);
      chunks_ok; unfold within; len_lia.
  - destruct (JS.length cur =? 0).
    + destruct (Z.leb_spec (JS.length paragraph) maxCharLength); chunks_ok.
    + destruct (Z.leb_spec (JS.length cur + 1 + JS.length paragraph)
                  maxCharLength); [chunks_ok; unfold within; len_lia |].
      cbv zeta.
      destruct (Z.leb_spec (JS.length paragraph) maxCharLength); chunks_ok.
Qed.

(** Every chunk is within the limit. *)
Lemma chunkText_within (text : jsstring) :
  Forall (within maxCharLength) (chunkText text maxCharLength).
Proof.
  unfold chunkText.
  destruct (JS.is_empty text || (maxCharLength <=? 0)); [constructor |].
  cbv zeta.
  destruct (fold_left _ _ _) as [chunks cur] eqn:Hloop.
  apply Forall_forall. intros chunk [Hin _]%filter_In. revert chunk Hin.
  apply Forall_forall, all_chunks_flush. rewrite <- Hloop.
  apply fold_left_invariant with (Q := fun _ => True).
  - intros st p _. apply chunkText_body_within.
  - apply Forall_forall. trivial.
  - split; [constructor | apply (within_nil maxCharLength limit_pos)].
Qed.

(** One iteration adds the paragraph to the held text, up to white
    space. *)
Lemma chunkText_body_held st (paragraph : jsstring) :
  strip_ws (held (chunkText_body maxCharLength st paragraph))
  = strip_ws (held st) ++ strip_ws paragraph.
Proof.
  destruct st as [chunks cur]. unfold chunkText_body.
  rewrite length_zero_iff, !length_pos_iff.
  pose proof (splitParagraphByWords_strip_ws paragraph maxCharLength
                limit_pos) as Hwords.
  destruct (is_blank paragraph) eqn:Hblank.
  - rewrite (strip_ws_blank _ Hblank), app_nil_r.
    destruct cur as [| d cur]; simpl negb; cbv iota; [reflexivity |].
    destruct (_ <=? _); unfold held; cbn [fst snd];
      rewrite ?concat_app; cbn [concat];
      rewrite ?app_nil_r, ?strip_ws_app;
      change (strip_ws [LF]) with (@nil N);
      rewrite ?app_nil_r, <- ?app_assoc; reflexivity.
  - destruct cur as [| d cur]; simpl JS.is_empty; cbv iota zeta;
      repeat match goal with
             | |- context [?a <=? ?b] => destruct (a <=? b)
             end;
      unfold held; cbn [fst snd];
      rewrite ?concat_app; cbn [concat];
      rewrite ?app_nil_r, ?strip_ws_app, ?Hwords;
      change (strip_ws [LF]) with (@nil N);
      rewrite ?app_nil_r, <- ?app_assoc; reflexivity.
Qed.

Lemma chunkText_fold_held paragraphs st :
  strip_ws (held (fold_left (chunkText_body maxCharLength) paragraphs st))
  = strip_ws (held st) ++ strip_ws (concat paragraphs).
Proof.
  revert st. induction paragraphs as [| p ps IH]; intros st; simpl.
  - now rewrite app_nil_r.
  - rewrite IH, chunkText_body_held, strip_ws_app.
    now rewrite app_assoc.
Qed.

(** The chunks keep every code unit that is not white space, in order. *)
Lemma chunkText_strip_ws (text : jsstring) :
  strip_ws (concat (chunkText text maxCharLength)) = strip_ws text.
Proof.
  unfold chunkText.
  replace (maxCharLength <=? 0) with false
    by (symmetry; apply Z.leb_gt; lia).
  rewrite orb_false_r.
  destruct text as [| c text]; [reflexivity |].
  simpl JS.is_empty. cbv iota zeta.
  set (t := c :: text).
  pose proof (chunkText_fold_held (JS.split t LF) ([], [])) as Hheld.
  destruct (fold_left _ _ _) as [chunks cur].
  rewrite strip_ws_concat_split in Hheld by reflexivity.
  change (strip_ws (held ([], [])) ++ strip_ws t) with (strip_ws t)
    in Hheld.
  now rewrite strip_ws_drop_blank, concat_flush.
Qed.

End ChunkText.

(** No chunk that is returned is blank, whatever the limit. *)
Lemma chunkText_not_blank (text : jsstring) (maxCharLength : Z)
    (chunk : jsstring) :
  In chunk (chunkText text maxCharLength) -> is_blank chunk = false.
Proof.
  unfold chunkText.
  destruct (JS.is_empty text || (maxCharLength <=? 0)); [intros [] |].
  cbv zeta. destruct (fold_left _ _ _) as [chunks cur].
  intros [_ Hkeep]%filter_In. now apply negb_true_iff.
Qed.

(** ** Text that fits in one chunk *)

Lemma chunkText_fold_fits (maxCharLength : Z) (ps : list jsstring) :
  (forall p, In p ps -> is_blank p = true -> p = []) ->
  forall cur : jsstring,
    cur <> [] ->
    JS.length (cur ++ concat (map (cons LF) ps)) <= maxCharLength ->
    fold_left (chunkText_body maxCharLength) ps ([], cur)
    = ([], cur ++ concat (map (cons LF) ps)).
Proof.
  induction ps as [| p ps IH]; intros Hblank cur Hcur Hfit; simpl.
  - now rewrite app_nil_r.
  - simpl in Hfit. rewrite length_zero_iff, length_pos_iff.
    replace (JS.is_empty cur) with false
      by (symmetry; now apply is_empty_false).
    simpl negb. cbv iota.
    assert (Hnext : cur ++ LF :: p <> [])
      by (intros H; apply app_eq_nil in H; destruct H; discriminate).
    assert (IH' : fold_left (chunkText_body maxCharLength) ps
                    ([], cur ++ LF :: p)
                  = ([], cur ++ (LF :: p) ++ concat (map (cons LF) ps))).
    { rewrite app_assoc. apply IH.
      - intros q Hq. apply Hblank. now right.
      - exact Hnext.
      - rewrite <- app_assoc. exact Hfit. }
    destruct (is_blank p) eqn:Hp.
    + rewrite (Hblank p (or_introl eq_refl) Hp) in *.
      destruct (Z.leb_spec (JS.length cur + 1) maxCharLength);
        [exact IH' | len_lia].
    + destruct (Z.leb_spec (JS.length cur + 1 + JS.length p) maxCharLength);
        [exact IH' | len_lia].
Qed.

(** A text within the limit whose first line is not blank and whose blank
    lines are empty comes back as the single chunk. *)
Lemma chunkText_fits (text : jsstring) (maxCharLength : Z) :
  JS.length text <= maxCharLength ->
  is_blank (hd [] (JS.split text LF)) = false ->
  (forall p, In p (JS.split text LF) -> is_blank p = true -> p = []) ->
  chunkText text maxCharLength = [text].
Proof.
  intros Hfit Hfirst Hblank.
  destruct (split_join text LF) as (p0 & ps & Hsplit & Htext).
  rewrite Hsplit in *. simpl in Hfirst.
  assert (Hp0 : p0 <> []) by (intros ->; discriminate).
  assert (Hne : text <> [])
    by (rewrite Htext; intros H; apply app_eq_nil in H; tauto).
  assert (Hp0fit : JS.length p0 <= maxCharLength)
    by (rewrite Htext in Hfit; len_lia).
  assert (Hpos : 0 < maxCharLength)
    by (destruct p0; [congruence | len_lia]).
  unfold chunkText.
  replace (JS.is_empty text) with false
    by (symmetry; now apply is_empty_false).
  replace (maxCharLength <=? 0) with false by (symmetry; apply Z.leb_gt; lia).
  simpl orb. cbv iota zeta. rewrite Hsplit. simpl fold_left.
  rewrite Hfirst.
  replace (JS.length p0 <=? maxCharLength) with true
    by (symmetry; now apply Z.leb_le).
  rewrite chunkText_fold_fits; try assumption.
  - rewrite <- Htext, length_pos_iff.
    replace (JS.is_empty text) with false
      by (symmetry; now apply is_empty_false).
    simpl.
    replace (is_blank text) with false; [reflexivity |].
    rewrite Htext, is_blank_app, Hfirst. reflexivity.
  - intros p Hp. apply Hblank. now right.
  - now rewrite <- Htext.
Qed.

(** ** Fuel for the whole call chain *)

Lemma for_of_fold {S A : Type} (fueled : S -> A -> option S)
    (body : S -> A -> S) (Q : A -> Prop) (l : list A) :
  (forall st x, Q x -> fueled st x = Some (body st x)) ->
  Forall Q l ->
  forall st, Fueled.for_of fueled l st = Some (fold_left body l st).
Proof.
  intros Hbody. induction 1 as [| x l Hx _ IH]; intros st; simpl.
  - reflexivity.
  - rewrite (Hbody st x Hx). simpl. apply IH.
Qed.

Lemma split_pieces_fuel (s : jsstring) (sep : N) (fuel : nat) :
  (List.length s <= fuel)%nat ->
  Forall (fun w => (List.length w <= fuel)%nat) (JS.split s sep).
Proof.
  intros Hfuel. apply Forall_forall. intros w Hw.
  apply split_piece_length in Hw. lia.
Qed.

Lemma splitParagraphByWords_fuel_enough (paragraph : jsstring)
    (maxCharLength : Z) (fuel : nat) :
  (List.length paragraph <= fuel)%nat ->
  Fueled.splitParagraphByWords fuel paragraph maxCharLength
  = Some (splitParagraphByWords paragraph maxCharLength).
Proof.
  intros Hfuel.
  unfold Fueled.splitParagraphByWords, splitParagraphByWords.
  destruct (JS.is_empty paragraph || (maxCharLength <=? 0)); [reflexivity |].
  cbv zeta.
  rewrite (for_of_fold _ (splitParagraphByWords_body maxCharLength)
             (fun w => (List.length w <= fuel)%nat)).
  - simpl. now destruct (fold_left _ _ _).
  - intros [chunks cur] w Hw.
    unfold Fueled.splitParagraphByWords_body, splitParagraphByWords_body.
    rewrite (splitLongWord_fuel_enough w maxCharLength fuel Hw).
    destruct (JS.length w =? 0); [reflexivity |].
    destruct (JS.length w >? maxCharLength).
    + now destruct (JS.length cur >? 0).
    + cbv zeta. now destruct (_ <=? _).
  - now apply split_pieces_fuel.
Qed.

Lemma chunkText_fuel_enough (text : jsstring) (maxCharLength : Z)
    (fuel : nat) :
  (List.length text <= fuel)%nat ->
  Fueled.chunkText fuel text maxCharLength
  = Some (chunkText text maxCharLength).
Proof.
  intros Hfuel. unfold Fueled.chunkText, chunkText.
  destruct (JS.is_empty text || (maxCharLength <=? 0)); [reflexivity |].
  cbv zeta.
  rewrite (for_of_fold _ (chunkText_body maxCharLength)
             (fun p => (List.length p <= fuel)%nat)).
  - simpl. now destruct (fold_left _ _ _).
  - intros [chunks cur] p Hp.
    unfold Fueled.chunkText_body, chunkText_body.
    rewrite (splitParagraphByWords_fuel_enough p maxCharLength fuel Hp).
    destruct (is_blank p).
    + destruct (JS.length cur >? 0); [| reflexivity].
      now destruct (_ <=? _).
    + destruct (JS.length cur =? 0).
      * now destruct (_ <=? _).
      * destruct (_ <=? _); [reflexivity |]. cbv zeta.
        now destruct (_ <=? _).
  - now apply split_pieces_fuel.
Qed.

Lemma split_count (s : jsstring) (sep : N) :
  (List.length (JS.split s sep) <= S (List.length s))%nat.
Proof.
  induction s as [| c s IH]; simpl; [lia |].
  destruct (N.eqb c sep); [simpl; lia |].
  destruct (JS.split s sep); simpl in *; lia.
Qed.

(** ** The scenarios of the specification *)

Example scenario_hello_world :
  chunkText (JS.lit "hello world") 20 = [JS.lit "hello world"].
Proof. reflexivity. Qed.

Example scenario_long_word :
  chunkText (JS.lit "a a a bbbbbbbbbbbbbbbbbbbbbbbbb") 10
  = [JS.lit "a a a"; JS.lit "bbbbbbbbbb"; JS.lit "bbbbbbbbbb"; JS.lit "bbbbb"].
Proof. reflexivity. Qed.

Example scenario_blank_line :
  chunkText (JS.lit "para1" ++ [LF; LF] ++ JS.lit "para2") 100
  = [JS.lit "para1" ++ [LF; LF] ++ JS.lit "para2"].
Proof. reflexivity. Qed.

Example scenario_single_word :
  map JS.length (chunkText (repeat 120%N 50) 10) = [10; 10; 10; 10; 10].
Proof. reflexivity. Qed.

Example scenario_repeated_spaces :
  splitParagraphByWords (JS.lit "  ab   cd e  fghijklmnop q ") 5
  = [JS.lit "ab cd"; JS.lit "e"; JS.lit "fghij"; JS.lit "klmno"; JS.lit "p";
     JS.lit "q"].
Proof. reflexivity. Qed.

(** ** The claims *)

(** C1.  For every limit > 0 and every text, every chunk returned by
    [chunkText text limit] has length at most [limit]; so do the chunks of
    the word packer and the pieces of a force-split word, whose last piece
    is never longer than [limit]: no chunk of any origin exceeds it. *)
Theorem chunkText_chunk_within_limit (text : jsstring) (limit : Z) :
  0 < limit ->
  (forall chunk, In chunk (chunkText text limit) -> JS.length chunk <= limit)
  /\ (forall chunk, In chunk (splitParagraphByWords text limit) ->
                    JS.length chunk <= limit)
  /\ (forall piece, In piece (splitLongWord text limit) ->
                    JS.length piece <= limit).
Proof.
  intros Hpos. repeat split.
  - apply Forall_forall, chunkText_within, Hpos.
  - apply Forall_forall, splitParagraphByWords_within, Hpos.
  - intros piece Hin. now apply (splitLongWord_piece_length limit Hpos text).
Qed.

Lemma chunkText_chunk_within_limit_witness :
  JS.length (JS.lit "bbbbb") <= 10.
Proof.
  apply (proj1 (chunkText_chunk_within_limit
                  (JS.lit "a a a bbbbbbbbbbbbbbbbbbbbbbbbb") 10 eq_refl)).
  vm_compute. tauto.
Defined.

(** C2.  For every limit > 0 and every non-empty word [w] longer than
    [limit], [splitLongWord w limit] returns pieces whose concatenation in
    order is [w]; every piece has length exactly [limit] except the last,
    whose length lies in [1, limit]; and the call returns (the loop stops
    within [length w] iterations), so no error is possible. *)
Theorem splitLongWord_long_word (w : jsstring) (limit : Z) :
  0 < limit -> w <> [] -> JS.length w > limit ->
  exists slices last,
    splitLongWord_fuel (List.length w) w limit = Some (slices ++ [last])
    /\ splitLongWord w limit = slices ++ [last]
    /\ concat (slices ++ [last]) = w
    /\ Forall (fun piece => JS.length piece = limit) slices
    /\ 1 <= JS.length last <= limit.
Proof.
  intros Hpos Hne _.
  destruct (splitLongWord_spec limit Hpos w Hne)
    as (slices & rest & Hsplit & Hcat & Hfull & Hrest).
  exists slices, rest. repeat split; auto; try lia.
  - rewrite <- Hsplit. now apply splitLongWord_fuel_enough.
  - rewrite concat_app. simpl. now rewrite app_nil_r.
Qed.

Lemma splitLongWord_long_word_witness :
  exists slices last,
    splitLongWord_fuel 7 (JS.lit "abcdefg") 3 = Some (slices ++ [last])
    /\ splitLongWord (JS.lit "abcdefg") 3 = slices ++ [last]
    /\ concat (slices ++ [last]) = JS.lit "abcdefg"
    /\ Forall (fun piece => JS.length piece = 3) slices
    /\ 1 <= JS.length last <= 3.
Proof.
  apply (splitLongWord_long_word (JS.lit "abcdefg") 3).
  - reflexivity.
  - discriminate.
  - reflexivity.
Defined.

(** The lines of a text written as a first line and further lines, each
    after its line break. *)
Lemma split_lines (a : jsstring) (ls : list jsstring) :
  ~ In LF a -> Forall (fun l => ~ In LF l) ls ->
  JS.split (a ++ concat (map (cons LF) ls)) LF = a :: ls.
Proof.
  intros Ha Hls. revert a Ha.
  induction Hls as [| l ls Hl _ IH]; intros a Ha; simpl.
  - rewrite app_nil_r. now apply split_no_occurrence.
  - rewrite split_app_sep by exact Ha. now rewrite IH.
Qed.

(** What one iteration does with a blank line, empty or of white space. *)
Lemma chunkText_body_blank (limit : Z) chunks (cur line : jsstring) :
  is_blank line = true ->
  chunkText_body limit (chunks, cur) line
  = if JS.is_empty cur then (chunks, cur)
    else if JS.length cur + 1 <=? limit then (chunks, cur ++ [LF])
         else (chunks ++ [cur], []).
Proof.
  intros Hblank. unfold chunkText_body.
  rewrite Hblank, length_pos_iff. now destruct cur.
Qed.

(** Blank lines in a row, met with a pending chunk that has room, leave one
    line break each. *)
Lemma chunkText_fold_blanks (limit : Z) (blanks : list jsstring) :
  Forall (fun l => is_blank l = true) blanks ->
  forall cur : jsstring,
    cur <> [] ->
    JS.length cur + Z.of_nat (List.length blanks) <= limit ->
    fold_left (chunkText_body limit) blanks ([], cur)
    = ([], cur ++ repeat LF (List.length blanks)).
Proof.
  induction 1 as [| l blanks Hl _ IH]; intros cur Hcur Hfit.
  - simpl. now rewrite app_nil_r.
  - cbn [fold_left]. rewrite (chunkText_body_blank limit [] cur l Hl).
    replace (JS.is_empty cur) with false
      by (symmetry; now apply is_empty_false).
    simpl List.length in Hfit.
    destruct (Z.leb_spec (JS.length cur + 1) limit); [| lia].
    rewrite IH.
    + simpl List.length. simpl repeat. now rewrite <- app_assoc.
    + intros H'. apply app_eq_nil in H'. destruct H'. discriminate.
    + rewrite length_app. change (JS.length [LF]) with 1. lia.
Qed.

(** C3, as the code has it.  For every limit > 0, a blank line (empty or
    of white space only) met while the pending chunk is non-empty appends
    exactly one line break to it when that stays within the limit, and
    flushes the pending chunk otherwise; with an empty pending chunk it is
    skipped.  Blank lines in a row are therefore all kept, as one line
    break each, not collapsed: for [a], [b] non-blank without line breaks
    and any blank lines [blanks] between them, when [a], one line break per
    blank line, one more and [b] fit in [limit], the result is the one chunk
    [a ++ repeat LF (S (length blanks)) ++ b].  Blank lines are never
    emitted as their own chunk. *)
Theorem chunkText_keeps_blank_lines (a b : jsstring)
    (blanks : list jsstring) (limit : Z) :
  0 < limit ->
  ~ In LF a -> ~ In LF b -> is_blank a = false -> is_blank b = false ->
  Forall (fun l => is_blank l = true /\ ~ In LF l) blanks ->
  JS.length a + Z.of_nat (S (List.length blanks)) + JS.length b <= limit ->
  (forall chunks (cur line : jsstring),
      is_blank line = true ->
      chunkText_body limit (chunks, cur) line
      = if JS.is_empty cur then (chunks, cur)
        else if JS.length cur + 1 <=? limit then (chunks, cur ++ [LF])
             else (chunks ++ [cur], []))
  /\ chunkText (a ++ concat (map (cons LF) blanks) ++ LF :: b) limit
     = [a ++ repeat LF (S (List.length blanks)) ++ b]
  /\ (forall text chunk,
         In chunk (chunkText text limit) -> is_blank chunk = false).
Proof.
  intros Hpos Ha Hb Hablank Hbblank Hblanks Hfit.
  pose proof (length_nonneg a) as Hla. pose proof (length_nonneg b) as Hlb.
  split; [intros chunks cur line; apply chunkText_body_blank |].
  split; [| intros text chunk; apply chunkText_not_blank].
  assert (Hblank : Forall (fun l => is_blank l = true) blanks)
    by (eapply Forall_impl; [| exact Hblanks]; now intros l [Hl _]).
  assert (Hfree : Forall (fun l => ~ In LF l) (blanks ++ [b])).
  { apply Forall_app. split.
    - eapply Forall_impl; [| exact Hblanks]. now intros l [_ Hl].
    - constructor; [exact Hb | constructor]. }
  assert (Hne : a <> []) by (intros ->; discriminate).
  set (text := a ++ concat (map (cons LF) blanks) ++ LF :: b).
  assert (Hsplit : JS.split text LF = a :: blanks ++ [b]).
  { rewrite <- (split_lines a (blanks ++ [b]) Ha Hfree).
    subst text. rewrite map_app, concat_app. simpl.
    now rewrite app_nil_r. }
  unfold chunkText.
  replace (JS.is_empty text) with false
    by (subst text; now destruct a).
  replace (limit <=? 0) with false by (symmetry; apply Z.leb_gt; lia).
  simpl orb. cbv iota zeta. rewrite Hsplit.
  cbn [fold_left]. rewrite fold_left_app.
  assert (Hfirst : chunkText_body limit ([], []) a = ([], a)).
  { unfold chunkText_body. rewrite Hablank. simpl.
    destruct (Z.leb_spec (JS.length a) limit); [reflexivity | lia]. }
  rewrite Hfirst, (chunkText_fold_blanks limit blanks Hblank a Hne) by lia.
  set (cur := a ++ repeat LF (List.length blanks)).
  assert (Hcur : JS.length cur = JS.length a + Z.of_nat (List.length blanks)).
  { subst cur. rewrite length_app. unfold JS.length at 2.
    now rewrite repeat_length. }
  assert (Hlast : chunkText_body limit ([], cur) b = ([], cur ++ [LF] ++ b)).
  { unfold chunkText_body. rewrite Hbblank, length_zero_iff.
    replace (JS.is_empty cur) with false by (subst cur; now destruct a).
    destruct (Z.leb_spec (JS.length cur + 1 + JS.length b) limit);
      [reflexivity | lia]. }
  cbn [fold_left]. rewrite Hlast.
  assert (Hout : cur ++ [LF] ++ b
                 = a ++ repeat LF (S (List.length blanks)) ++ b).
  { subst cur. rewrite <- app_assoc. f_equal.
    cbn [repeat]. rewrite repeat_cons. now rewrite <- app_assoc. }
  rewrite Hout, length_pos_iff.
  replace (JS.is_empty (a ++ repeat LF (S (List.length blanks)) ++ b))
    with false by now destruct a.
  simpl. rewrite is_blank_app, Hablank. reflexivity.
Qed.

Lemma chunkText_keeps_blank_lines_witness :
  (forall chunks (cur line : jsstring),
      is_blank line = true ->
      chunkText_body 100 (chunks, cur) line
      = if JS.is_empty cur then (chunks, cur)
        else if JS.length cur + 1 <=? 100 then (chunks, cur ++ [LF])
             else (chunks ++ [cur], []))
  /\ chunkText (JS.lit "a"
                ++ concat (map (cons LF) [JS.lit "  "; []; JS.lit " "])
                ++ LF :: JS.lit "b") 100
     = [JS.lit "a" ++ repeat LF 4 ++ JS.lit "b"]
  /\ (forall text chunk,
         In chunk (chunkText text 100) -> is_blank chunk = false).
Proof.
  apply (chunkText_keeps_blank_lines (JS.lit "a") (JS.lit "b")
           [JS.lit "  "; []; JS.lit " "] 100).
  - reflexivity.
  - vm_compute. intuition discriminate.
  - vm_compute. intuition discriminate.
  - reflexivity.
  - reflexivity.
  - repeat constructor; vm_compute; intuition discriminate.
  - vm_compute. discriminate.
Defined.

(** C3 as stated fails: the two blank lines between "a" and "b" are both in
    the chunk that is returned. *)
Lemma chunkText_collapses_blank_lines_counterexample :
  chunkText (JS.lit "a" ++ [LF; LF; LF] ++ JS.lit "b") 100
  = [JS.lit "a" ++ [LF; LF; LF] ++ JS.lit "b"]
  /\ blank_lines_in_a_row (JS.lit "a" ++ [LF; LF; LF] ++ JS.lit "b") = 2%nat
  /\ ~ (forall limit text chunk,
           0 < limit -> In chunk (chunkText text limit) ->
           (blank_lines_in_a_row chunk <= 1)%nat).
Proof.
  split; [reflexivity |]. split; [reflexivity |].
  intros Hclaim.
  specialize (Hclaim 100 (JS.lit "a" ++ [LF; LF; LF] ++ JS.lit "b")
                (JS.lit "a" ++ [LF; LF; LF] ++ JS.lit "b")
                eq_refl (or_introl eq_refl)).
  vm_compute in Hclaim. lia.
Qed.

(** C4, as the code has it.  For every limit > 0 and every text shorter than
    [limit] whose first line is not blank and whose blank lines are all
    empty, [chunkText text limit] is exactly [[text]]. *)
Theorem chunkText_short_text (text : jsstring) (limit : Z) :
  0 < limit ->
  JS.length text < limit ->
  is_blank (hd [] (JS.split text LF)) = false ->
  (forall line, In line (JS.split text LF) ->
                is_blank line = true -> line = []) ->
  chunkText text limit = [text].
Proof.
  intros _ Hshort Hfirst Hblank.
  apply chunkText_fits; auto. lia.
Qed.

Lemma chunkText_short_text_witness :
  chunkText (JS.lit "para1" ++ [LF; LF] ++ JS.lit "para2") 100
  = [JS.lit "para1" ++ [LF; LF] ++ JS.lit "para2"].
Proof.
  apply (chunkText_short_text
           (JS.lit "para1" ++ [LF; LF] ++ JS.lit "para2") 100).
  - reflexivity.
  - reflexivity.
  - reflexivity.
  - vm_compute. intros line [<- | [<- | [<- | []]]]; try reflexivity;
      discriminate.
Defined.

(** C4 as stated fails: a non-blank text shorter than the limit that starts
    with a line break loses it. *)
Lemma chunkText_short_text_counterexample :
  0 < 10
  /\ is_blank (LF :: JS.lit "a") = false
  /\ JS.length (LF :: JS.lit "a") < 10
  /\ chunkText (LF :: JS.lit "a") 10 = [JS.lit "a"]
  /\ chunkText (LF :: JS.lit "a") 10 <> [LF :: JS.lit "a"].
Proof.
  repeat split; try reflexivity. vm_compute. discriminate.
Qed.

(** C5.  For every limit > 0 and every text, the chunks of
    [chunkText text limit] put together in order and stripped of white
    space are the text stripped of white space: no other code unit is
    dropped, duplicated or reordered. *)
Theorem chunkText_preserves_content (text : jsstring) (limit : Z) :
  0 < limit ->
  strip_ws (concat (chunkText text limit)) = strip_ws text.
Proof.
  intros Hpos. now apply chunkText_strip_ws.
Qed.

Lemma chunkText_preserves_content_witness :
  strip_ws (concat (chunkText
                      (JS.lit " one  two" ++ [LF; LF] ++ JS.lit "threefour ")
                      4))
  = JS.lit "onetwothreefour".
Proof.
  rewrite (chunkText_preserves_content
             (JS.lit " one  two" ++ [LF; LF] ++ JS.lit "threefour ") 4
             eq_refl).
  reflexivity.
Defined.

(** C6.  If the text is empty or the limit is at most 0,
    [chunkText text limit] returns the empty sequence, and it returns
    before any loop runs (no fuel is used), so nothing is raised. *)
Theorem chunkText_degenerate (text : jsstring) (limit : Z) :
  text = [] \/ limit <= 0 ->
  chunkText text limit = [] /\ Fueled.chunkText 0 text limit = Some [].
Proof.
  intros Hdeg. unfold chunkText, Fueled.chunkText.
  replace (JS.is_empty text || (limit <=? 0)) with true; [split; reflexivity |].
  symmetry. apply orb_true_iff.
  destruct Hdeg as [-> | Hlimit]; [now left | right].
  now apply Z.leb_le.
Qed.

Lemma chunkText_degenerate_witness :
  (chunkText [] 20 = [] /\ Fueled.chunkText 0 [] 20 = Some [])
  /\ (chunkText (JS.lit "hello world") 0 = []
      /\ Fueled.chunkText 0 (JS.lit "hello world") 0 = Some []).
Proof.
  split.
  - apply (chunkText_degenerate [] 20). left. reflexivity.
  - apply (chunkText_degenerate (JS.lit "hello world") 0). right. lia.
Defined.

(** C7.  For every text and every limit, no element of
    [chunkText text limit] is the empty string or consists of white space
    only. *)
Theorem chunkText_no_blank_chunk (text : jsstring) (limit : Z)
    (chunk : jsstring) :
  In chunk (chunkText text limit) ->
  chunk <> [] /\ whitespace_only chunk = false /\ JS.trim chunk <> [].
Proof.
  intros Hin. apply chunkText_not_blank in Hin.
  repeat split.
  - intros ->. discriminate.
  - now rewrite <- is_blank_whitespace_only.
  - now apply is_empty_false.
Qed.

Lemma chunkText_no_blank_chunk_witness :
  JS.lit "b" <> [] /\ whitespace_only (JS.lit "b") = false
  /\ JS.trim (JS.lit "b") <> [].
Proof.
  apply (chunkText_no_blank_chunk
           (JS.lit "a" ++ [LF] ++ JS.lit "   " ++ [LF] ++ JS.lit "b") 1).
  vm_compute. tauto.
Defined.

(** C8.  [splitLongWord], [splitParagraphByWords] and [chunkText] return
    on every string and every integer limit: one unit of fuel per code unit
    of the input pays for every run of the [while] loop.  Each iteration of
    that loop shortens the remaining word by [limit] code units when
    [limit > 0]; when [limit <= 0] the loop is not entered (no fuel is
    needed).  The two [for] loops run once per piece of a split, at most
    [length + 1] times. *)
Theorem chunking_terminates (text : jsstring) (limit : Z) (fuel : nat) :
  (List.length text <= fuel)%nat ->
  splitLongWord_fuel fuel text limit = Some (splitLongWord text limit)
  /\ Fueled.splitParagraphByWords fuel text limit
     = Some (splitParagraphByWords text limit)
  /\ Fueled.chunkText fuel text limit = Some (chunkText text limit)
  /\ (0 < limit -> JS.length text > limit ->
      JS.length (JS.substring text limit None) = JS.length text - limit)
  /\ (limit <= 0 -> splitLongWord_fuel 0 text limit = Some [])
  /\ (List.length (JS.split text SPACE) <= S (List.length text))%nat
  /\ (List.length (JS.split text LF) <= S (List.length text))%nat.
Proof.
  intros Hfuel. repeat split.
  - now apply splitLongWord_fuel_enough.
  - now apply splitParagraphByWords_fuel_enough.
  - now apply chunkText_fuel_enough.
  - intros Hpos Hlong. rewrite substring_suffix.
    unfold JS.length in *. rewrite length_skipn. lia.
  - intros Hlimit. unfold splitLongWord_fuel.
    replace (limit <=? 0) with true by (symmetry; now apply Z.leb_le).
    now rewrite orb_true_r.
  - apply split_count.
  - apply split_count.
Qed.

Lemma chunking_terminates_witness :
  Fueled.chunkText 31 (JS.lit "a a a bbbbbbbbbbbbbbbbbbbbbbbbb") 10
  = Some (chunkText (JS.lit "a a a bbbbbbbbbbbbbbbbbbbbbbbbb") 10).
Proof.
  refine (proj1 (proj2 (proj2 (chunking_terminates
            (JS.lit "a a a bbbbbbbbbbbbbbbbbbbbbbbbb") 10 31 _)))).
  vm_compute. lia.
Defined.

(** C9.  [splitLongWord] returns the empty sequence for an empty word or a
    limit at most 0, and [[w]] for a non-empty word [w] of length at most
    the limit. *)
Theorem splitLongWord_outside_precondition (word : jsstring) (limit : Z) :
  (word = [] \/ limit <= 0 -> splitLongWord word limit = [])
  /\ (1 <= JS.length word <= limit -> splitLongWord word limit = [word]).
Proof.
  split.
  - intros Hdeg. unfold splitLongWord, splitLongWord_fuel.
    replace (JS.is_empty word || (limit <=? 0)) with true; [reflexivity |].
    symmetry. apply orb_true_iff.
    destruct Hdeg as [-> | Hlimit]; [now left | right].
    now apply Z.leb_le.
  - intros [Hne Hfit]. unfold splitLongWord, splitLongWord_fuel.
    destruct word as [| c word]; [unfold JS.length in Hne; simpl in Hne; lia |].
    set (w := c :: word) in *.
    replace (limit <=? 0) with false by (symmetry; apply Z.leb_gt; lia).
    simpl orb. cbv iota.
    assert (Hrun : splitLongWord_while (List.length w) limit [] w
                   = Some ([], w)).
    { destruct (List.length w); simpl;
        destruct (Z.gtb_spec (JS.length w) limit); try reflexivity; lia. }
    rewrite Hrun. reflexivity.
Qed.

Lemma splitLongWord_outside_precondition_witness :
  splitLongWord [] 5 = []
  /\ splitLongWord (JS.lit "word") (-1) = []
  /\ splitLongWord (JS.lit "word") 4 = [JS.lit "word"].
Proof.
  split; [| split].
  - apply (proj1 (splitLongWord_outside_precondition [] 5)).
    left. reflexivity.
  - apply (proj1 (splitLongWord_outside_precondition (JS.lit "word") (-1))).
    right. lia.
  - apply (proj2 (splitLongWord_outside_precondition (JS.lit "word") 4)).
    vm_compute. split; discriminate.
Defined.

(** C10.  For every limit > 0 and every paragraph, every chunk of
    [splitParagraphByWords paragraph limit] has no leading space, no
    trailing space and no two spaces in a row. *)
Theorem splitParagraphByWords_spacing (paragraph : jsstring) (limit : Z)
    (chunk : jsstring) :
  0 < limit ->
  In chunk (splitParagraphByWords paragraph limit) ->
  starts_with_space chunk = false
  /\ ends_with_space chunk = false
  /\ has_double_space chunk = false.
Proof.
  intros Hpos Hin.
  pose proof (splitParagraphByWords_tidy limit Hpos paragraph) as Htidy.
  rewrite Forall_forall in Htidy. exact (Htidy chunk Hin).
Qed.

Lemma splitParagraphByWords_spacing_witness :
  starts_with_space (JS.lit "ab cd") = false
  /\ ends_with_space (JS.lit "ab cd") = false
  /\ has_double_space (JS.lit "ab cd") = false.
Proof.
  apply (splitParagraphByWords_spacing
           (JS.lit "  ab   cd e  fghijklmnop q ") 5 (JS.lit "ab cd")).
  - reflexivity.
  - vm_compute. tauto.
Defined.

(** ** Further properties of the chunking functions *)

Lemma concat_full_slices (slices : list jsstring) (n : Z) :
  Forall (fun p => JS.length p = n) slices ->
  JS.length (concat slices) = n * Z.of_nat (List.length slices).
Proof.
  induction 1 as [| p slices Hp _ IH]; simpl.
  - unfold JS.length. simpl. lia.
  - rewrite length_app, IH, Hp. lia.
Qed.

(** X1.  For a positive limit, [splitLongWord word limit] has
    ceil(length word / limit) pieces, for every word (none for the empty
    word). *)
Theorem splitLongWord_piece_count (word : jsstring) (limit : Z) :
  0 < limit ->
  Z.of_nat (List.length (splitLongWord word limit))
  = (JS.length word + limit - 1) / limit.
Proof.
  intros Hpos. destruct word as [| c word].
  - rewrite splitLongWord_empty. simpl.
    symmetry. apply Z.div_small. unfold JS.length. simpl. lia.
  - destruct (splitLongWord_spec limit Hpos (c :: word))
      as (slices & rest & -> & Hcat & Hfull & Hrest); [discriminate |].
    rewrite <- Hcat, length_app, (concat_full_slices slices limit Hfull).
    rewrite List.length_app. simpl List.length.
    apply Z.div_unique with (r := JS.length rest - 1); lia.
Qed.

Lemma splitLongWord_piece_count_witness :
  Z.of_nat (List.length (splitLongWord (JS.lit "abcdefg") 3)) = (7 + 3 - 1) / 3.
Proof.
  apply (splitLongWord_piece_count (JS.lit "abcdefg") 3). reflexivity.
Defined.

Lemma split_app (a r : jsstring) (sep : N) :
  JS.split (a ++ sep :: r) sep = JS.split a sep ++ JS.split r sep.
Proof.
  induction a as [| c a IH]; simpl.
  - now rewrite N.eqb_refl.
  - destruct (N.eqb c sep); [now rewrite IH |].
    rewrite IH. destruct (JS.split a sep) eqn:Ha; [| reflexivity].
    now apply split_not_nil in Ha.
Qed.

Lemma flush_nonempty (chunks : list jsstring) (cur : jsstring) :
  Forall (fun c => c <> []) chunks ->
  Forall (fun c => c <> [])
    (if JS.length cur >? 0 then chunks ++ [cur] else chunks).
Proof.
  intros Hchunks. rewrite length_pos_iff.
  destruct cur; simpl; [exact Hchunks |].
  apply Forall_app. split; [exact Hchunks |].
  constructor; [discriminate | constructor].
Qed.

Lemma splitLongWord_nonempty (word : jsstring) (limit : Z) :
  0 < limit -> Forall (fun c => c <> []) (splitLongWord word limit).
Proof.
  intros Hpos. apply Forall_forall. intros piece Hin ->.
  apply (splitLongWord_piece_length limit Hpos) in Hin.
  unfold JS.length in Hin. simpl in Hin. lia.
Qed.

Lemma splitParagraphByWords_nonempty (paragraph : jsstring) (limit : Z) :
  0 < limit ->
  Forall (fun c => c <> []) (splitParagraphByWords paragraph limit).
Proof.
  intros Hpos. unfold splitParagraphByWords.
  destruct (JS.is_empty paragraph || (limit <=? 0)); [constructor |].
  cbv zeta.
  destruct (fold_left _ _ _) as [chunks cur] eqn:Hloop.
  apply flush_nonempty.
  change chunks with (fst (chunks, cur)). rewrite <- Hloop.
  apply fold_left_invariant
    with (P := fun st => Forall (fun c : jsstring => c <> []) (fst st))
         (Q := fun _ : jsstring => True).
  - intros [chs c] w _ Hst. simpl in Hst.
    unfold splitParagraphByWords_body.
    destruct (JS.length w =? 0); [exact Hst |].
    destruct (JS.length w >? limit).
    + pose proof (flush_nonempty chs c Hst) as Hflush.
      pose proof (splitLongWord_nonempty w limit Hpos).
      destruct (JS.length c >? 0); simpl; apply Forall_app; auto.
    + cbv zeta. destruct (_ <=? _); simpl; [exact Hst |].
      now apply flush_nonempty.
  - apply Forall_forall. trivial.
  - constructor.
Qed.

(** X2.  For a positive limit every chunk of the word packer is
    non-empty: it has between 1 and [limit] code units. *)
Theorem splitParagraphByWords_chunk_length (paragraph : jsstring)
    (limit : Z) (chunk : jsstring) :
  0 < limit ->
  In chunk (splitParagraphByWords paragraph limit) ->
  1 <= JS.length chunk <= limit.
Proof.
  intros Hpos Hin. split.
  - pose proof (splitParagraphByWords_nonempty paragraph limit Hpos) as Hne.
    rewrite Forall_forall in Hne. specialize (Hne chunk Hin).
    destruct chunk; [congruence | len_lia].
  - pose proof (splitParagraphByWords_within limit Hpos paragraph) as Hw.
    rewrite Forall_forall in Hw. exact (Hw chunk Hin).
Qed.

Lemma splitParagraphByWords_chunk_length_witness :
  1 <= JS.length (JS.lit "e") <= 5.
Proof.
  apply (splitParagraphByWords_chunk_length
           (JS.lit "  ab   cd e  fghijklmnop q ") 5 (JS.lit "e")).
  - reflexivity.
  - vm_compute. tauto.
Defined.

Lemma words_of_word (w : jsstring) :
  w <> [] -> ~ In SPACE w -> words_of w = [w].
Proof.
  intros Hne Hfree. unfold words_of.
  destruct w; [congruence |]. simpl JS.is_empty. cbv iota.
  now apply split_no_occurrence.
Qed.

Lemma words_of_add_word (cur w : jsstring) :
  ~ In SPACE w -> words_of (cur ++ SPACE :: w) = JS.split cur SPACE ++ [w].
Proof.
  intros Hfree. unfold words_of.
  destruct (cur ++ SPACE :: w) eqn:Hcur.
  - apply app_eq_nil in Hcur. destruct Hcur. discriminate.
  - simpl JS.is_empty. cbv iota. rewrite <- Hcur.
    now rewrite split_app, (split_no_occurrence w).
Qed.

Lemma flat_map_flush {B : Type} (f : jsstring -> list B) chunks
    (cur : jsstring) :
  flat_map f (if JS.length cur >? 0 then chunks ++ [cur] else chunks)
  = flat_map f chunks ++ (if JS.is_empty cur then [] else f cur).
Proof.
  rewrite length_pos_iff. destruct cur; simpl.
  - now rewrite app_nil_r.
  - rewrite flat_map_app. simpl. now rewrite app_nil_r.
Qed.

Section KeepsWords.

Variable limit : Z.
Hypothesis limit_pos : 0 < limit.

Lemma splitParagraphByWords_body_words st (w : jsstring) :
  ~ In SPACE w -> JS.length w <= limit ->
  held_words (splitParagraphByWords_body limit st w)
  = held_words st ++ (if JS.is_empty w then [] else [w]).
Proof.
  destruct st as [chunks cur]. intros Hfree Hfit.
  unfold splitParagraphByWords_body, held_words.
  rewrite length_zero_iff.
  destruct w as [| c w]; simpl JS.is_empty; cbv iota.
  { now rewrite app_nil_r. }
  set (word := c :: w) in *.
  assert (Hword : word <> []) by discriminate.
  destruct (Z.gtb_spec (JS.length word) limit) as [Hlong | _]; [lia |].
  rewrite length_pos_iff.
  destruct cur as [| d cur]; simpl JS.is_empty; simpl negb; cbv iota zeta.
  - change (words_of []) with (@nil jsstring).
    destruct (_ <=? _); cbn [fst snd];
      rewrite ?app_nil_l, ?app_nil_r, (words_of_word word Hword Hfree);
      reflexivity.
  - destruct (_ <=? _); cbn [fst snd].
    + change ((d :: cur) ++ [SPACE] ++ word)
        with ((d :: cur) ++ SPACE :: word).
      rewrite (words_of_add_word (d :: cur) word Hfree).
      unfold words_of. simpl JS.is_empty. cbv iota.
      now rewrite app_assoc.
    + rewrite flat_map_app, (words_of_word word Hword Hfree).
      unfold words_of. simpl JS.is_empty. cbv iota.
      cbn [flat_map]. now rewrite app_nil_r, <- app_assoc.
Qed.

Lemma splitParagraphByWords_fold_words (ws : list jsstring) :
  Forall (fun w => ~ In SPACE w /\ JS.length w <= limit) ws ->
  forall st,
    held_words (fold_left (splitParagraphByWords_body limit) ws st)
    = held_words st ++ filter (fun w => negb (JS.is_empty w)) ws.
Proof.
  induction 1 as [| w ws [Hfree Hfit] _ IH]; intros st; simpl.
  - now rewrite app_nil_r.
  - rewrite IH, splitParagraphByWords_body_words by assumption.
    rewrite <- app_assoc. now destruct (JS.is_empty w).
Qed.

Lemma splitParagraphByWords_words (paragraph : jsstring) :
  (forall w, In w (JS.split paragraph SPACE) -> JS.length w <= limit) ->
  flat_map (fun chunk => JS.split chunk SPACE)
    (splitParagraphByWords paragraph limit)
  = words paragraph.
Proof.
  intros Hfit. unfold splitParagraphByWords, words.
  replace (limit <=? 0) with false by (symmetry; apply Z.leb_gt; lia).
  rewrite orb_false_r.
  destruct paragraph as [| c paragraph]; [reflexivity |].
  simpl JS.is_empty. cbv iota zeta.
  set (p := c :: paragraph) in *.
  assert (Hws : Forall (fun w => ~ In SPACE w /\ JS.length w <= limit)
                  (JS.split p SPACE)).
  { apply Forall_forall. intros w Hw. split; [| now apply Hfit].
    now apply split_no_sep in Hw. }
  pose proof (splitParagraphByWords_fold_words _ Hws ([], [])) as Hfold.
  destruct (fold_left _ _ _) as [chunks cur].
  rewrite flat_map_flush. exact Hfold.
Qed.

End KeepsWords.

(** X3.  For a positive limit and a paragraph all of whose words fit in
    [limit], the word packer never breaks, drops or reorders a word: the
    words of its chunks, in order, are the non-empty words of the
    paragraph. *)
Theorem splitParagraphByWords_keeps_words (paragraph : jsstring)
    (limit : Z) :
  0 < limit ->
  (forall w, In w (JS.split paragraph SPACE) -> JS.length w <= limit) ->
  flat_map (fun chunk => JS.split chunk SPACE)
    (splitParagraphByWords paragraph limit)
  = words paragraph.
Proof.
  intros Hpos. now apply splitParagraphByWords_words.
Qed.

Lemma splitParagraphByWords_keeps_words_witness :
  flat_map (fun chunk => JS.split chunk SPACE)
    (splitParagraphByWords (JS.lit " to be  or not to be ") 6)
  = words (JS.lit " to be  or not to be ").
Proof.
  apply (splitParagraphByWords_keeps_words (JS.lit " to be  or not to be ") 6).
  - reflexivity.
  - vm_compute. intros w H.
    repeat (destruct H as [<- | H]; [discriminate |]). destruct H.
Defined.

Lemma strip_ws_nil_blank (s : jsstring) :
  strip_ws s = [] -> is_blank s = true.
Proof.
  rewrite is_blank_whitespace_only. unfold strip_ws, whitespace_only.
  induction s as [| c s IH]; simpl; [reflexivity |].
  destruct (JS.isWhiteSpace c); simpl; [exact IH | discriminate].
Qed.

(** X4.  For a positive limit, [chunkText] returns no chunk exactly when
    the text is blank (empty or white space only). *)
Theorem chunkText_empty_iff_blank (text : jsstring) (limit : Z) :
  0 < limit ->
  chunkText text limit = [] <-> is_blank text = true.
Proof.
  intros Hpos. pose proof (chunkText_strip_ws limit Hpos text) as Hkeep.
  split.
  - intros Hnone. rewrite Hnone in Hkeep. simpl in Hkeep.
    now apply strip_ws_nil_blank.
  - intros Hblank. rewrite (strip_ws_blank text Hblank) in Hkeep.
    destruct (chunkText text limit) as [| c cs] eqn:Hchunks; [reflexivity |].
    assert (Hc : is_blank c = false).
    { apply (chunkText_not_blank text limit). rewrite Hchunks. now left. }
    simpl in Hkeep. rewrite strip_ws_app in Hkeep.
    apply app_eq_nil in Hkeep. destruct Hkeep as [Hkeep _].
    apply strip_ws_nil_blank in Hkeep. congruence.
Qed.

Lemma chunkText_empty_iff_blank_witness :
  chunkText (JS.lit "  " ++ [LF] ++ JS.lit " ") 5 = []
  <-> is_blank (JS.lit "  " ++ [LF] ++ JS.lit " ") = true.
Proof.
  apply (chunkText_empty_iff_blank (JS.lit "  " ++ [LF] ++ JS.lit " ") 5).
  reflexivity.
Defined.

(** ** The lines of a chunk *)

Lemma split_piece_subset (s : jsstring) (sep : N) (w : jsstring) (x : N) :
  In w (JS.split s sep) -> In x w -> In x s.
Proof.
  destruct (split_join s sep) as (p & ps & -> & ->).
  intros [<- | Hw] Hx; apply in_or_app; [now left | right].
  apply in_concat. exists (sep :: w). split; [| now right].
  apply in_map_iff. now exists w.
Qed.

Lemma hd_split_app (a : jsstring) (more : list jsstring) :
  hd [] (JS.split a LF ++ more) = hd [] (JS.split a LF).
Proof.
  destruct (JS.split a LF) eqn:Ha; [| reflexivity].
  now apply split_not_nil in Ha.
Qed.

Lemma well_lined_line (p : jsstring) :
  ~ In LF p -> is_blank p = false -> well_lined p.
Proof.
  intros Hfree Hp. unfold well_lined.
  rewrite (split_no_occurrence p LF Hfree). simpl. split; [exact Hp |].
  intros line [<- | []] Hblank. congruence.
Qed.

Lemma well_lined_add_line (cur p : jsstring) :
  well_lined cur -> ~ In LF p -> (is_blank p = true -> p = []) ->
  well_lined (cur ++ LF :: p).
Proof.
  intros [Hfirst Hlines] Hfree Hp. unfold well_lined.
  rewrite split_app, (split_no_occurrence p LF Hfree), hd_split_app.
  split; [exact Hfirst |].
  intros line [Hin | [<- | []]]%in_app_or; auto.
Qed.

Section ChunkLines.

Variable limit : Z.
Hypothesis limit_pos : 0 < limit.

Lemma splitParagraphByWords_body_no_break st (w : jsstring) :
  no_break w ->
  all_chunks no_break st ->
  all_chunks no_break (splitParagraphByWords_body limit st w).
Proof.
  destruct st as [chunks cur]. intros Hw Hst.
  assert (Hpieces : Forall no_break (splitLongWord w limit)).
  { apply Forall_forall. intros piece Hin Hlf. apply Hw.
    rewrite <- (splitLongWord_concat _ limit_pos w).
    apply in_concat. eauto. }
  assert (Hnil : no_break []) by (intros []).
  unfold splitParagraphByWords_body.
  destruct (JS.length w =? 0); [exact Hst |].
  destruct (JS.length w >? limit).
  - destruct (JS.length cur >? 0); chunks_ok.
  - cbv zeta. destruct (JS.length cur >? 0); destruct (_ <=? _); chunks_ok.
    + intros [Hin | [Heq | Hin]]%in_app_or; auto. discriminate.
    + intros [Hin | Hin]%in_app_or; auto.
Qed.

Lemma splitParagraphByWords_no_break (paragraph : jsstring) :
  no_break paragraph ->
  Forall no_break (splitParagraphByWords paragraph limit).
Proof.
  intros Hp. unfold splitParagraphByWords.
  destruct (JS.is_empty paragraph || (limit <=? 0)); [constructor |].
  cbv zeta.
  destruct (fold_left _ _ _) as [chunks cur] eqn:Hloop.
  apply all_chunks_flush. rewrite <- Hloop.
  apply fold_left_invariant with (Q := no_break).
  - intros st w. apply splitParagraphByWords_body_no_break.
  - apply Forall_forall. intros w Hw Hlf. apply Hp.
    now apply (split_piece_subset paragraph SPACE w).
  - split; [constructor | intros []].
Qed.

Lemma chunkText_body_lined st (p : jsstring) :
  no_break p -> lined st -> lined (chunkText_body limit st p).
Proof.
  destruct st as [chunks cur]. intros Hp [Hchunks Hcur]. simpl in *.
  assert (Hwords : Forall (fun c => is_blank c = false -> well_lined c)
                     (splitParagraphByWords p limit)).
  { eapply Forall_impl; [| apply (splitParagraphByWords_no_break p Hp)].
    intros c Hc Hblank. now apply well_lined_line. }
  assert (Hpush : Forall (fun c => is_blank c = false -> well_lined c)
                    (chunks ++ [cur])).
  { apply Forall_app. split; [exact Hchunks |].
    constructor; [| constructor]. intros Hblank.
    destruct Hcur as [-> | Hcur]; [discriminate | exact Hcur]. }
  unfold chunkText_body, lined.
  rewrite length_zero_iff, !length_pos_iff.
  destruct (is_blank p) eqn:Hblank.
  - destruct cur as [| d cur]; simpl negb; cbv iota; [split; auto |].
    destruct Hcur as [Hcur | Hcur]; [discriminate |].
    destruct (_ <=? _); cbn [fst snd]; split; auto.
    right. apply (well_lined_add_line (d :: cur) []); auto.
  - destruct cur as [| d cur]; simpl JS.is_empty; cbv iota zeta.
    + destruct (_ <=? _); cbn [fst snd]; split; auto.
      * right. now apply well_lined_line.
      * apply Forall_app. auto.
    + destruct Hcur as [Hcur | Hcur]; [discriminate |].
      destruct (_ <=? _); [| destruct (_ <=? _)]; cbn [fst snd]; split; auto.
      * right. apply (well_lined_add_line (d :: cur) p); auto. congruence.
      * right. now apply well_lined_line.
      * apply Forall_app. auto.
Qed.

Lemma chunkText_well_lined (text chunk : jsstring) :
  In chunk (chunkText text limit) -> well_lined chunk.
Proof.
  intros Hin. pose proof (chunkText_not_blank _ _ _ Hin) as Hblank.
  revert Hin. unfold chunkText.
  destruct (JS.is_empty text || (limit <=? 0)); [intros [] |]. cbv zeta.
  assert (Hloop : lined (fold_left (chunkText_body limit)
                           (JS.split text LF) ([], []))).
  { apply fold_left_invariant with (Q := no_break).
    - intros st p. apply chunkText_body_lined.
    - apply Forall_forall. intros p. apply split_no_sep.
    - split; [constructor | now left]. }
  destruct (fold_left _ _ _) as [chunks cur]. destruct Hloop as [Hchunks Hcur].
  simpl in Hchunks, Hcur.
  intros [Hin _]%filter_In. revert Hin. rewrite length_pos_iff.
  rewrite Forall_forall in Hchunks.
  destruct cur as [| d cur]; simpl negb; cbv iota.
  - intros Hin. now apply Hchunks.
  - intros [Hin | [<- | []]]%in_app_or; [now apply Hchunks |].
    destruct Hcur as [Hcur | Hcur]; [discriminate | exact Hcur].
Qed.

End ChunkLines.

(** X5.  For a positive limit, every chunk [chunkText] returns starts with
    a line that is not blank, and every blank line inside it is empty:
    white-space-only lines of the text are reduced to bare line breaks and
    no chunk starts with one. *)
Theorem chunkText_chunk_lines (text : jsstring) (limit : Z)
    (chunk : jsstring) :
  0 < limit ->
  In chunk (chunkText text limit) ->
  is_blank (hd [] (JS.split chunk LF)) = false
  /\ forall line, In line (JS.split chunk LF) ->
                  is_blank line = true -> line = [].
Proof.
  intros Hpos Hin. exact (chunkText_well_lined limit Hpos text chunk Hin).
Qed.

Lemma chunkText_chunk_lines_witness :
  is_blank (hd [] (JS.split (JS.lit " a" ++ [LF; LF] ++ JS.lit "b") LF)) = false
  /\ forall line,
       In line (JS.split (JS.lit " a" ++ [LF; LF] ++ JS.lit "b") LF) ->
       is_blank line = true -> line = [].
Proof.
  apply (chunkText_chunk_lines
           ([LF] ++ JS.lit " a" ++ [LF] ++ JS.lit "  " ++ [LF] ++ JS.lit "b")
           10).
  - reflexivity.
  - vm_compute. tauto.
Defined.

(** X6.  Chunking is idempotent on its output: for a positive limit,
    chunking any returned chunk again with the same limit gives that chunk
    alone, so re-chunking the whole result changes nothing. *)
Theorem chunkText_idempotent (text : jsstring) (limit : Z) :
  0 < limit ->
  (forall chunk, In chunk (chunkText text limit) ->
                 chunkText chunk limit = [chunk])
  /\ flat_map (fun chunk => chunkText chunk limit) (chunkText text limit)
     = chunkText text limit.
Proof.
  intros Hpos.
  assert (Hone : forall chunk, In chunk (chunkText text limit) ->
                               chunkText chunk limit = [chunk]).
  { intros chunk Hin.
    destruct (chunkText_well_lined limit Hpos text chunk Hin) as [H1 H2].
    apply chunkText_fits; auto.
    pose proof (chunkText_within limit Hpos text) as Hw.
    rewrite Forall_forall in Hw. exact (Hw chunk Hin). }
  split; [exact Hone |].
  induction (chunkText text limit) as [| c cs IH]; [reflexivity |].
  simpl. rewrite (Hone c (or_introl eq_refl)). simpl. f_equal.
  apply IH. intros chunk Hin. apply Hone. now right.
Qed.

Lemma chunkText_idempotent_witness :
  flat_map (fun chunk => chunkText chunk 10)
    (chunkText (JS.lit "a a a bbbbbbbbbbbbbbbbbbbbbbbbb") 10)
  = chunkText (JS.lit "a a a bbbbbbbbbbbbbbbbbbbbbbbbb") 10.
Proof.
  apply (chunkText_idempotent (JS.lit "a a a bbbbbbbbbbbbbbbbbbbbbbbbb") 10).
  reflexivity.
Defined.

(** ** Chunking never adds text *)

Lemma cost_split (s : jsstring) (sep : N) :
  cost (JS.split s sep) = JS.length s + 1.
Proof.
  destruct (split_join s sep) as (p & ps & -> & ->).
  simpl. rewrite length_app.
  assert (Hps : JS.length (concat (map (cons sep) ps)) = cost ps).
  { induction ps as [| q ps IH]; [reflexivity |].
    simpl. rewrite <- IH. len_lia. }
  rewrite Hps. lia.
Qed.

Lemma room_step (st st' : list jsstring * jsstring) (n : Z) :
  grows_by st st' n -> room st' <= room st + n + 1.
Proof.
  unfold grows_by, room. intros [Hgrow Hfirst].
  pose proof (length_nonneg (held st)).
  destruct (Z.eqb_spec (JS.length (held st')) 0);
    destruct (Z.eqb_spec (JS.length (held st)) 0); lia.
Qed.

Lemma room_fold {A : Type} (body : list jsstring * jsstring -> A ->
                                   list jsstring * jsstring)
    (size : A -> Z) (items : list A) :
  (forall st x, grows_by st (body st x) (size x)) ->
  forall st,
    room (fold_left body items st)
    <= room st + fold_right (fun x acc => size x + 1 + acc) 0 items.
Proof.
  intros Hbody. induction items as [| x items IH]; intros st; simpl.
  - lia.
  - specialize (IH (body st x)).
    pose proof (room_step st (body st x) (size x) (Hbody st x)). lia.
Qed.

Lemma room_bound (st : list jsstring * jsstring) (n : Z) :
  0 <= n -> room st <= n + 1 -> JS.length (held st) <= n.
Proof.
  unfold room. intros Hn.
  destruct (Z.eqb_spec (JS.length (held st)) 0); lia.
Qed.

Lemma splitParagraphByWords_body_grows (limit : Z) st (w : jsstring) :
  0 < limit ->
  grows_by st (splitParagraphByWords_body limit st w) (JS.length w).
Proof.
  intros Hpos. destruct st as [chunks cur].
  pose proof (f_equal JS.length (splitLongWord_concat limit Hpos w))
    as Hpieces.
  unfold splitParagraphByWords_body.
  destruct (Z.eqb_spec (JS.length w) 0); [held_lengths |].
  destruct (JS.length w >? limit).
  - destruct (Z.gtb_spec (JS.length cur) 0); held_lengths.
  - cbv zeta.
    destruct (Z.gtb_spec (JS.length cur) 0); destruct (_ <=? _);
      held_lengths.
Qed.

Lemma splitParagraphByWords_total (paragraph : jsstring) (limit : Z) :
  total_length (splitParagraphByWords paragraph limit)
  <= JS.length paragraph.
Proof.
  pose proof (length_nonneg paragraph) as Hp.
  unfold splitParagraphByWords, total_length.
  destruct (JS.is_empty paragraph) eqn:Hempty; [exact Hp |].
  destruct (Z.leb_spec limit 0) as [_ | Hpos]; [exact Hp |].
  simpl orb. cbv iota zeta.
  pose proof (room_fold (splitParagraphByWords_body limit) JS.length
                (JS.split paragraph SPACE)
                (fun st w => splitParagraphByWords_body_grows limit st w Hpos)
                ([], [])) as Hroom.
  fold (cost (JS.split paragraph SPACE)) in Hroom.
  rewrite cost_split in Hroom.
  destruct (fold_left _ _ _) as [chunks cur].
  rewrite concat_flush. apply room_bound; [exact Hp | exact Hroom].
Qed.

Lemma chunkText_body_grows (limit : Z) st (p : jsstring) :
  grows_by st (chunkText_body limit st p) (JS.length p).
Proof.
  destruct st as [chunks cur].
  pose proof (splitParagraphByWords_total p limit) as Hwords.
  unfold total_length in Hwords.
  pose proof (length_nonneg p).
  unfold chunkText_body.
  destruct (is_blank p).
  - destruct (Z.gtb_spec (JS.length cur) 0); [| held_lengths].
    destruct (_ <=? _); held_lengths.
  - destruct (Z.eqb_spec (JS.length cur) 0).
    + destruct (_ <=? _); held_lengths.
    + pose proof (length_nonneg cur).
      destruct (_ <=? _); [held_lengths |]. cbv zeta.
      destruct (_ <=? _); held_lengths.
Qed.

Lemma total_length_filter (keep : jsstring -> bool) chunks :
  total_length (filter keep chunks) <= total_length chunks.
Proof.
  unfold total_length.
  induction chunks as [| c chunks IH]; simpl; [lia |].
  pose proof (length_nonneg c).
  destruct (keep c); simpl; rewrite ?length_app; lia.
Qed.

Lemma count_le_total (chunks : list jsstring) :
  Forall (fun c => c <> []) chunks ->
  Z.of_nat (List.length chunks) <= total_length chunks.
Proof.
  unfold total_length.
  induction 1 as [| c chunks Hc _ IH]; simpl; [reflexivity |].
  rewrite length_app. destruct c; [congruence | len_lia].
Qed.

(** X7.  Chunking never adds text: for every text and every limit, the
    chunks of [chunkText] have together at most as many code units as the
    text, and there are at most that many chunks. *)
Theorem chunkText_total_length (text : jsstring) (limit : Z) :
  total_length (chunkText text limit) <= JS.length text
  /\ Z.of_nat (List.length (chunkText text limit)) <= JS.length text.
Proof.
  assert (Htotal : total_length (chunkText text limit) <= JS.length text).
  { pose proof (length_nonneg text) as Ht.
    unfold chunkText.
    destruct (JS.is_empty text || (limit <=? 0)); [exact Ht |]. cbv zeta.
    pose proof (room_fold (chunkText_body limit) JS.length
                  (JS.split text LF) (chunkText_body_grows limit)
                  ([], [])) as Hroom.
    fold (cost (JS.split text LF)) in Hroom. rewrite cost_split in Hroom.
    destruct (fold_left _ _ _) as [chunks cur].
    eapply Z.le_trans; [apply total_length_filter |].
    unfold total_length. rewrite concat_flush.
    apply room_bound; [exact Ht | exact Hroom]. }
  split; [exact Htotal |].
  eapply Z.le_trans; [apply count_le_total | exact Htotal].
  apply Forall_forall. intros chunk Hin ->.
  apply chunkText_not_blank in Hin. discriminate.
Qed.

(** ** Greedy packing *)

Lemma tightly_packed_push (limit : Z) (chunks : list jsstring)
    (c d : jsstring) :
  tightly_packed limit (chunks ++ [c]) ->
  JS.length c + 1 + JS.length (first_word d) > limit ->
  tightly_packed limit (chunks ++ [c; d]).
Proof.
  intros Hpacked Hfull.
  induction chunks as [| a chunks IH]; simpl in *; [tauto |].
  destruct Hpacked as [Hhead Htail]. split; [| now apply IH].
  destruct chunks; exact Hhead.
Qed.

Lemma tightly_packed_grow (limit : Z) (chunks : list jsstring)
    (c c' : jsstring) :
  tightly_packed limit (chunks ++ [c]) ->
  first_word c' = first_word c ->
  tightly_packed limit (chunks ++ [c']).
Proof.
  intros Hpacked Hfirst.
  induction chunks as [| a chunks IH]; simpl in *; [tauto |].
  destruct Hpacked as [Hhead Htail]. split; [| now apply IH].
  destruct chunks; simpl in *; [now rewrite Hfirst | exact Hhead].
Qed.

Lemma first_word_grow (cur w : jsstring) :
  first_word (cur ++ SPACE :: w) = first_word cur.
Proof.
  unfold first_word. rewrite split_app.
  destruct (JS.split cur SPACE) eqn:Hcur; [| reflexivity].
  now apply split_not_nil in Hcur.
Qed.

Lemma first_word_word (w : jsstring) : ~ In SPACE w -> first_word w = w.
Proof.
  intros Hfree. unfold first_word. now rewrite split_no_occurrence.
Qed.

Section Greedy.

Variable limit : Z.

Lemma splitParagraphByWords_body_packed st (w : jsstring) :
  ~ In SPACE w /\ JS.length w <= limit ->
  packed limit st -> packed limit (splitParagraphByWords_body limit st w).
Proof.
  destruct st as [chunks cur]. intros [Hfree Hfit] [Hpacked Hstart].
  unfold flushed in Hpacked. simpl in Hpacked, Hstart.
  unfold splitParagraphByWords_body, packed, flushed.
  rewrite length_zero_iff.
  destruct w as [| c w]; simpl JS.is_empty; cbv iota; [split; assumption |].
  set (word := c :: w) in *.
  destruct (Z.gtb_spec (JS.length word) limit) as [Hlong | _]; [lia |].
  cbv zeta. destruct cur as [| d cur].
  - rewrite (Hstart eq_refl).
    change (JS.length [] >? 0) with false. cbv iota.
    destruct (Z.leb_spec (JS.length [] + JS.length [] + JS.length word) limit)
      as [_ | Hno]; [| len_lia].
    cbn [fst snd app]. split; [| discriminate]. subst word. simpl. tauto.
  - change (JS.length (d :: cur) >? 0) with true in *. cbv iota in *.
    destruct (Z.leb_spec (JS.length (d :: cur) + JS.length [SPACE]
                          + JS.length word) limit) as [Hyes | Hno];
      cbn [fst snd].
    + change (JS.length ((d :: cur) ++ [SPACE] ++ word) >? 0) with true.
      cbv iota. split; [| discriminate].
      apply (tightly_packed_grow limit chunks (d :: cur)); [exact Hpacked |].
      apply (first_word_grow (d :: cur) word).
    + change (JS.length word >? 0) with true. cbv iota.
      split; [| discriminate].
      rewrite <- app_assoc. apply tightly_packed_push; [exact Hpacked |].
      rewrite (first_word_word word Hfree).
      change (JS.length [SPACE]) with 1 in Hno. lia.
Qed.

Lemma splitParagraphByWords_packed (paragraph : jsstring) :
  (forall w, In w (JS.split paragraph SPACE) -> JS.length w <= limit) ->
  tightly_packed limit (splitParagraphByWords paragraph limit).
Proof.
  intros Hfit. unfold splitParagraphByWords.
  destruct (JS.is_empty paragraph || (limit <=? 0)); [exact I |]. cbv zeta.
  assert (Hloop : packed limit (fold_left (splitParagraphByWords_body limit)
                            (JS.split paragraph SPACE) ([], []))).
  { apply fold_left_invariant
      with (Q := fun w => ~ In SPACE w /\ JS.length w <= limit).
    - intros st w. apply splitParagraphByWords_body_packed.
    - apply Forall_forall. intros w Hw. split; [| now apply Hfit].
      now apply split_no_sep in Hw.
    - split; [exact I | reflexivity]. }
  destruct (fold_left _ _ _) as [chunks cur]. exact (proj1 Hloop).
Qed.

End Greedy.

(** X8.  Packing is greedy: for a paragraph all of whose words fit in
    [limit], every chunk of the word packer is full
    for the word that follows it: the chunk, a space and the first word
    of the next chunk together exceed [limit]. *)
Theorem splitParagraphByWords_greedy (paragraph : jsstring) (limit : Z) :
  (forall w, In w (JS.split paragraph SPACE) -> JS.length w <= limit) ->
  tightly_packed limit (splitParagraphByWords paragraph limit).
Proof.
  apply splitParagraphByWords_packed.
Qed.

Lemma splitParagraphByWords_greedy_witness :
  tightly_packed 6 (splitParagraphByWords (JS.lit " to be  or not to be ") 6).
Proof.
  apply (splitParagraphByWords_greedy (JS.lit " to be  or not to be ") 6).
  vm_compute. intros w H.
  repeat (destruct H as [<- | H]; [discriminate |]). destruct H.
Defined.

(** ** The import route *)

Section ImportRoute.

Import DatasetsRoute.

Lemma isWordChar_bounds (c : N) :
  isWordChar c = true -> (48 <= c <= 122)%N.
Proof.
  unfold isWordChar. rewrite !orb_true_iff, !andb_true_iff, !N.leb_le.
  rewrite N.eqb_eq. lia.
Qed.

Lemma isWordChar_not_white (c : N) :
  isWordChar c = true -> JS.isWhiteSpace c = false.
Proof.
  intros Hc%isWordChar_bounds. unfold JS.isWhiteSpace. simpl existsb.
  repeat match goal with
         | |- context [N.eqb c ?k] => destruct (N.eqb_spec c k); [lia |]
         end.
  simpl. destruct (N.leb_spec 8192 c); [lia | reflexivity].
Qed.

Lemma testIdentifier_app (s t : jsstring) :
  testIdentifier s = true -> testIdentifier t = true ->
  testIdentifier (s ++ t) = true.
Proof.
  unfold testIdentifier. rewrite !andb_true_iff, forallb_app, andb_true_iff.
  intros [Hs Hall] [_ Hallt]. repeat split; auto.
  destruct s; [discriminate | reflexivity].
Qed.

(** X9.  A dataset name that passes the format test of the import handler
    has 1 to 50 code units, all of them ASCII letters, digits or
    underscores; it is therefore not blank (the "required" test cannot
    reject it), it passes the test of the retrieval query, and the index
    name built from it is made of the same code units, 19 more of them. *)
Theorem valid_dataset_name (name : jsstring) :
  name_invalid name = false ->
  1 <= JS.length name <= 50
  /\ Forall (fun c => isWordChar c = true) name
  /\ name_missing (Some name) = false
  /\ name_invalid_for_query name = false
  /\ testIdentifier (indexName name) = true
  /\ JS.length (indexName name) = JS.length name + 19.
Proof.
  unfold name_invalid. intros [Htest Hlen]%orb_false_elim.
  apply negb_false_iff in Htest.
  assert (Hid := Htest). unfold testIdentifier in Htest.
  apply andb_prop in Htest. destruct Htest as [Hne Hall].
  destruct (Z.gtb_spec (JS.length name) 50) as [| Hshort]; [discriminate |].
  rewrite forallb_forall in Hall.
  destruct name as [| c name]; [discriminate |].
  repeat split.
  - len_lia.
  - exact Hshort.
  - apply Forall_forall. exact Hall.
  - simpl. rewrite is_blank_whitespace_only. simpl.
    now rewrite (isWordChar_not_white c (Hall c (or_introl eq_refl))).
  - unfold name_invalid_for_query. now rewrite Hid.
  - unfold indexName.
    apply testIdentifier_app; [reflexivity |].
    apply testIdentifier_app; [exact Hid | reflexivity].
  - unfold indexName. rewrite !length_app.
    change (JS.length (JS.lit "idx_hnsw_")) with 9.
    change (JS.length (JS.lit "_embedding")) with 10. lia.
Qed.

Lemma valid_dataset_name_witness :
  1 <= JS.length (JS.lit "my_notes_2024") <= 50
  /\ Forall (fun c => isWordChar c = true) (JS.lit "my_notes_2024")
  /\ name_missing (Some (JS.lit "my_notes_2024")) = false
  /\ name_invalid_for_query (JS.lit "my_notes_2024") = false
  /\ testIdentifier (indexName (JS.lit "my_notes_2024")) = true
  /\ JS.length (indexName (JS.lit "my_notes_2024"))
     = JS.length (JS.lit "my_notes_2024") + 19.
Proof.
  apply (valid_dataset_name (JS.lit "my_notes_2024")). reflexivity.
Defined.

(** The loop counts every chunk that is not blank exactly once. *)
Lemma import_loop_counts (process : nat -> jsstring -> bool)
    (chunks : list jsstring) :
  Forall (fun c => is_blank c = false) chunks ->
  forall i successful failed,
    let '(successful', failed') :=
      import_loop process i chunks (successful, failed) in
    successful' + failed'
    = successful + failed + Z.of_nat (List.length chunks)
    /\ successful <= successful'
    /\ failed <= failed'
    /\ (successful' = successful <->
        forall j chunk, nth_error chunks j = Some chunk ->
                        process (i + j)%nat chunk = false).
Proof.
  induction 1 as [| c chunks Hc _ IH]; intros i s f.
  - simpl. repeat split; try lia. intros _ [| j] chunk; discriminate.
  - cbn [import_loop]. rewrite Hc.
    destruct (process i c) eqn:Hp.
    + specialize (IH (S i) (s + 1) f).
      destruct (import_loop _ _ _ _) as [s' f'].
      destruct IH as (Hsum & Hs & Hf & _).
      cbv beta iota. simpl List.length.
      repeat (split; [lia |]).
      intros Hall. specialize (Hall 0%nat c eq_refl).
      rewrite Nat.add_0_r in Hall. congruence.
    + specialize (IH (S i) s (f + 1)).
      destruct (import_loop _ _ _ _) as [s' f'].
      destruct IH as (Hsum & Hs & Hf & Hnone).
      cbv beta iota. simpl List.length.
      do 3 (split; [lia |]). split.
      * intros Heq [| j] chunk Hj.
        -- simpl in Hj. injection Hj as <-. now rewrite Nat.add_0_r.
        -- rewrite Nat.add_succ_r. apply (proj1 Hnone Heq j chunk Hj).
      * intros Hall. apply Hnone. intros j chunk Hj.
        specialize (Hall (S j) chunk Hj).
        now rewrite Nat.add_succ_r in Hall.
Qed.

(** X10.  For content that is not blank (what the handler has checked
    before), the import answers 500 exactly when no chunk could be embedded
    and stored; otherwise it answers 200 with at least one stored chunk,
    and the stored and failed counts add up to the number of chunks: no
    chunk is skipped. *)
Theorem import_content_counts (process : nat -> jsstring -> bool)
    (content : jsstring) :
  is_blank content = false ->
  let chunks := chunkText content MAX_EMBEDDING_CHUNK_CHAR_LENGTH in
  (import_content process content = Failed500 <->
   forall j chunk, nth_error chunks j = Some chunk -> process j chunk = false)
  /\ (forall stored failed,
         import_content process content = Finished200 stored failed ->
         1 <= stored /\ 0 <= failed
         /\ stored + failed = Z.of_nat (List.length chunks)).
Proof.
  intros Hcontent chunks. unfold import_content. fold chunks.
  assert (Hchunks : Forall (fun c => is_blank c = false) chunks).
  { apply Forall_forall. intros c. apply chunkText_not_blank. }
  assert (Hsome : (Z.of_nat (List.length chunks) >? 0) = true).
  { destruct chunks as [| c cs] eqn:Hcs; [| reflexivity].
    apply (chunkText_empty_iff_blank content
             MAX_EMBEDDING_CHUNK_CHAR_LENGTH eq_refl) in Hcs. congruence. }
  assert (Htrim : (JS.length (JS.trim content) >? 0) = true).
  { rewrite length_pos_iff. unfold is_blank in Hcontent.
    now rewrite Hcontent. }
  pose proof (import_loop_counts process chunks Hchunks 0 0 0) as Hloop.
  destruct (import_loop _ _ _ _) as [s f].
  rewrite Hsome, Htrim, !andb_true_r.
  destruct Hloop as (Hsum & Hs & Hf & Hnone). simpl in Hnone.
  destruct (Z.eqb_spec s 0) as [-> | Hpos]; split.
  - split; [intros _; now apply Hnone | reflexivity].
  - discriminate.
  - split; [discriminate |].
    intros Hall. apply Hnone in Hall. congruence.
  - intros stored failed [= <- <-]. lia.
Qed.

Lemma import_content_counts_witness :
  1 <= 1 /\ 0 <= 1
  /\ 1 + 1
     = Z.of_nat (List.length (chunkText (repeat 120%N 4001)
                                MAX_EMBEDDING_CHUNK_CHAR_LENGTH)).
Proof.
  apply (proj2 (import_content_counts (fun j _ => Nat.eqb j 1)
                  (repeat 120%N 4001) ltac:(vm_compute; reflexivity)) 1 1).
  vm_compute. reflexivity.
Defined.

End ImportRoute.
